(** * audio_denoise.py: noise-sample selection and batch orchestration

    A shallow embedding of [src/audio_denoise.py] and the properties its
    specification states about it.

    Conventions of the embedding.
    - A Python [float] is a [pyfloat]: an exact rational, or one of the three
      special values [inf], [-inf], [nan].  Arithmetic on finite values is
      exact: binary64 rounding, overflow to infinity and the sign of zero are
      not represented.  Comparisons with [nan] are false, as in Python.
    - A Python [str] is a [string] whose characters are read as the code
      points U+0000 to U+00FF.
    - Python exceptions are the constructors of [exn]; code that can raise
      returns a [result].  [except Exception] is [try_except].
    - The file system is a tree of directories and files; paths are lists of
      components below the working directory, and names are matched with
      regard to letter case, as on POSIX.
    - A sample is an exact rational; [sf.read] and [sf.write] act on the
      tree, and the denoiser [nr.reduce_noise] and the set of formats
      [sf.write] can encode are parameters of [process_file] and [main].
    - Console output ([print], the progress bar) is not represented. *)

From stdpp Require Import gmap strings list.
From Stdlib Require Import QArith Qround Qpower Lqa ZArith Ascii String.

Open Scope string_scope.

(** ** Exceptions and fallible code *)

Inductive exn :=
| ValueError
| ZeroDivisionError
| OverflowError
| OSError
| LibsndfileError
| DenoiserError
| KeyError
| TypeError
| SystemExit (code : Z).

(** [SystemExit] derives from [BaseException] only; every other exception of
    the program derives from [Exception]. *)
Definition is_Exception (e : exn) : bool :=
  match e with
  | SystemExit _ => false
  | _ => true
  end.

Inductive result (A : Type) :=
| Ok (a : A)
| Raise (e : exn).
Arguments Ok {A} a.
Arguments Raise {A} e.

Definition rbind {A B : Type} (r : result A) (k : A -> result B) : result B :=
  match r with
  | Ok a => k a
  | Raise e => Raise e
  end.

Notation "'let*' x ':=' e 'in' k" := (rbind e (fun x => k))
  (at level 10, x pattern, e at level 100, k at level 200).

(** [try: body except Exception: handler] *)
Definition try_except {A : Type} (body : result A) (handler : exn -> result A)
  : result A :=
  match body with
  | Ok a => Ok a
  | Raise e => if is_Exception e then handler e else Raise e
  end.

Definition raises {A : Type} (r : result A) : Prop :=
  exists e, r = Raise e.

(** ** Floats *)

Inductive pyfloat :=
| Fin (q : Q)
| PInf
| NInf
| NaN.

Definition pf_of_int (z : Z) : pyfloat := Fin (inject_Z z).

Definition pf_neg (x : pyfloat) : pyfloat :=
  match x with
  | Fin q => Fin (- q)
  | PInf => NInf
  | NInf => PInf
  | NaN => NaN
  end.

Definition pf_add (x y : pyfloat) : pyfloat :=
  match x, y with
  | NaN, _ | _, NaN => NaN
  | Fin a, Fin b => Fin (a + b)
  | PInf, NInf | NInf, PInf => NaN
  | PInf, _ | _, PInf => PInf
  | NInf, _ | _, NInf => NInf
  end.

Definition pf_sub (x y : pyfloat) : pyfloat :=
  match x, y with
  | NaN, _ | _, NaN => NaN
  | Fin a, Fin b => Fin (a - b)
  | PInf, PInf | NInf, NInf => NaN
  | PInf, _ | _, NInf => PInf
  | NInf, _ | _, PInf => NInf
  end.

(** The infinity with the sign of [q], [nan] for zero. *)
Definition pf_signed_inf (q : Q) : pyfloat :=
  match Qcompare q 0 with
  | Gt => PInf
  | Lt => NInf
  | Eq => NaN
  end.

Definition pf_mul (x y : pyfloat) : pyfloat :=
  match x, y with
  | NaN, _ | _, NaN => NaN
  | Fin a, Fin b => Fin (a * b)
  | PInf, Fin q | Fin q, PInf => pf_signed_inf q
  | NInf, Fin q | Fin q, NInf => pf_signed_inf (- q)
  | PInf, PInf | NInf, NInf => PInf
  | PInf, NInf | NInf, PInf => NInf
  end.

(** [x / y]: Python raises [ZeroDivisionError] on a zero divisor. *)
Definition pf_truediv (x y : pyfloat) : result pyfloat :=
  match y with
  | NaN => Ok NaN
  | Fin b =>
      if Qeq_bool b 0 then Raise ZeroDivisionError
      else match x with
           | Fin a => Ok (Fin (a / b))
           | PInf => Ok (pf_signed_inf b)
           | NInf => Ok (pf_signed_inf (- b))
           | NaN => Ok NaN
           end
  | PInf | NInf =>
      match x with
      | Fin _ => Ok (Fin 0)
      | _ => Ok NaN
      end
  end.

(** [x < y] *)
Definition pf_ltb (x y : pyfloat) : bool :=
  match x, y with
  | NaN, _ | _, NaN => false
  | Fin a, Fin b => if Qlt_le_dec a b then true else false
  | NInf, NInf | PInf, _ | _, NInf => false
  | NInf, _ | _, PInf => true
  end.

(** The builtins [max(a, b)] and [min(a, b)]: the first argument is kept
    unless the second compares strictly greater (resp. smaller). *)
Definition py_max (a b : pyfloat) : pyfloat := if pf_ltb a b then b else a.
Definition py_min (a b : pyfloat) : pyfloat := if pf_ltb b a then b else a.

(** [int(x)]: truncation toward zero; [inf] and [nan] raise. *)
Definition py_int (x : pyfloat) : result Z :=
  match x with
  | Fin q => Ok (Z.quot (Qnum q) (Zpos (Qden q)))
  | PInf | NInf => Raise OverflowError
  | NaN => Raise ValueError
  end.

(** [round(x)]: to the nearest integer, ties to the even one. *)
Definition py_round (x : pyfloat) : result Z :=
  match x with
  | Fin q =>
      let f := Qfloor q in
      let r := (q - inject_Z f)%Q in
      match Qcompare r (1 # 2) with
      | Lt => Ok f
      | Gt => Ok (f + 1)%Z
      | Eq => Ok (if Z.even f then f else (f + 1)%Z)
      end
  | PInf | NInf => Raise OverflowError
  | NaN => Raise ValueError
  end.

(** [a / b] on two ints. *)
Definition int_truediv (a b : Z) : result pyfloat :=
  if (b =? 0)%Z then Raise ZeroDivisionError
  else Ok (Fin (inject_Z a / inject_Z b)).

Definition interval : Type := pyfloat * pyfloat.

(** ** Strings *)

Definition is_upper (c : ascii) : bool :=
  (65 <=? N_of_ascii c)%N && (N_of_ascii c <=? 90)%N.
Definition is_lower (c : ascii) : bool :=
  (97 <=? N_of_ascii c)%N && (N_of_ascii c <=? 122)%N.

Definition lower_char (c : ascii) : ascii :=
  if is_upper c then ascii_of_N (N_of_ascii c + 32) else c.
Definition upper_char (c : ascii) : ascii :=
  if is_lower c then ascii_of_N (N_of_ascii c - 32) else c.

(** [s.lower()]: the code points above U+007F have no ASCII letter as
    their lower case and are left in place, which is all a comparison with
    an ASCII word can see. *)
Fixpoint lower (s : string) : string :=
  match s with
  | EmptyString => EmptyString
  | String c s' => String (lower_char c) (lower s')
  end.

(** [s.upper()], for the ASCII strings the program applies it to. *)
Fixpoint upper (s : string) : string :=
  match s with
  | EmptyString => EmptyString
  | String c s' => String (upper_char c) (upper s')
  end.

(** [c in s] *)
Fixpoint contains (c : ascii) (s : string) : bool :=
  match s with
  | EmptyString => false
  | String d s' => Ascii.eqb d c || contains c s'
  end.

Definition is_empty (s : string) : bool :=
  match s with
  | EmptyString => true
  | String _ _ => false
  end.

Fixpoint lstrip (P : ascii -> bool) (s : string) : string :=
  match s with
  | EmptyString => EmptyString
  | String c s' => if P c then lstrip P s' else s
  end.

Fixpoint rstrip (P : ascii -> bool) (s : string) : string :=
  match s with
  | EmptyString => EmptyString
  | String c s' =>
      let r := rstrip P s' in
      if is_empty r && P c then EmptyString else String c r
  end.

(** [s.strip(chars)], the characters given by their predicate. *)
Definition strip (P : ascii -> bool) (s : string) : string :=
  lstrip P (rstrip P s).

(** [s.split(sep)] for a separator of one character. *)
Fixpoint split (sep : ascii) (s : string) : list string :=
  match s with
  | EmptyString => [EmptyString]
  | String c s' =>
      if Ascii.eqb c sep then EmptyString :: split sep s'
      else match split sep s' with
           | piece :: pieces => String c piece :: pieces
           | [] => [String c EmptyString]
           end
  end.

(** ** [float(str)] *)

Definition is_digit (c : ascii) : bool :=
  (48 <=? N_of_ascii c)%N && (N_of_ascii c <=? 57)%N.

Definition digit_value (c : ascii) : Z := Z.of_N (N_of_ascii c) - 48.

(** The white space [float] strips: tab to carriage return and the space,
    and the two spaces between U+0080 and U+00FF. *)
Definition is_space (c : ascii) : bool :=
  let n := N_of_ascii c in
  ((9 <=? n)%N && (n <=? 13)%N) || (n =? 32)%N
  || (n =? 133)%N || (n =? 160)%N.

(** Underscores may only stand between two digits; they are dropped. *)
Fixpoint remove_underscores_from (prev : ascii) (s : string) : option string :=
  match s with
  | EmptyString => if Ascii.eqb prev "_" then None else Some EmptyString
  | String c s' =>
      if Ascii.eqb c "_" then
        if is_digit prev then remove_underscores_from c s' else None
      else if Ascii.eqb prev "_" && negb (is_digit c) then None
      else option_map (String c) (remove_underscores_from c s')
  end.

Definition remove_underscores (s : string) : option string :=
  remove_underscores_from Ascii.zero s.

(** The longest prefix of digits, and what follows it. *)
Fixpoint take_digits (s : string) : string * string :=
  match s with
  | EmptyString => (EmptyString, EmptyString)
  | String c s' =>
      if is_digit c then
        let '(ds, rest) := take_digits s' in (String c ds, rest)
      else (EmptyString, s)
  end.

Fixpoint digits_to_Z (acc : Z) (s : string) : Z :=
  match s with
  | EmptyString => acc
  | String c s' => digits_to_Z (acc * 10 + digit_value c) s'
  end.

(** An optional sign: whether it is [-], and what follows it. *)
Definition take_sign (s : string) : bool * string :=
  match s with
  | String "-" s' => (true, s')
  | String "+" s' => (false, s')
  | _ => (false, s)
  end.

(** What follows [e] or [E]: an optional sign and at least one digit. *)
Definition parse_exponent (s : string) : option Z :=
  let '(neg, r) := take_sign s in
  let '(ds, rest) := take_digits r in
  if is_empty ds || negb (is_empty rest) then None
  else Some (if neg then - digits_to_Z 0 ds else digits_to_Z 0 ds)%Z.

(** The fraction of a decimal literal: a point and the digits after it. *)
Definition take_fraction (s : string) : string * string :=
  match s with
  | String "." r => take_digits r
  | _ => (EmptyString, s)
  end.

(** The end of a decimal literal: nothing, or [e] or [E] and an exponent. *)
Definition parse_exponent_part (s : string) : option Z :=
  match s with
  | EmptyString => Some 0%Z
  | String c r =>
      if Ascii.eqb c "e" || Ascii.eqb c "E" then parse_exponent r else None
  end.

(** The value of the digits [ip].[fp] scaled by the power [e] of ten. *)
Definition decimal_value (ip fp : string) (e : Z) : Q :=
  (inject_Z (digits_to_Z 0 (ip ++ fp))
   * Qpower 10 (e - Z.of_nat (String.length fp)))%Q.

(** An unsigned decimal literal: digits, an optional point and digits (one
    digit at least on either side), an optional exponent. *)
Definition parse_decimal (s : string) : option Q :=
  let '(ip, r1) := take_digits s in
  let '(fp, r2) := take_fraction r1 in
  if is_empty ip && is_empty fp then None
  else option_map (decimal_value ip fp) (parse_exponent_part r2).

Definition float_of_stripped (s : string) : result pyfloat :=
  let '(neg, body) := take_sign s in
  let signed (x : pyfloat) := if neg then pf_neg x else x in
  if (lower body =? "inf")%string || (lower body =? "infinity")%string
  then Ok (signed PInf)
  else if (lower body =? "nan")%string then Ok NaN
  else match parse_decimal body with
       | Some q => Ok (signed (Fin q))
       | None => Raise ValueError
       end.

(** [float(s)] *)
Definition py_float (s : string) : result pyfloat :=
  match remove_underscores s with
  | None => Raise ValueError
  | Some t => float_of_stripped (strip is_space t)
  end.

(** ** parse_time_range *)

Definition default_range : interval := (Fin 0, Fin 1).

Definition is_percent (c : ascii) : bool := Ascii.eqb c "%".

(** The body of the [try] block. *)
Definition parse_time_range_body (time_str : string) (total_duration : pyfloat)
  : result interval :=
  if (lower time_str =? "start")%string then Ok (Fin 0, Fin 1)
  else if (lower time_str =? "end")%string then
    Ok (pf_sub total_duration (Fin 1), total_duration)
  else if contains "%" time_str then
    let* x := py_float (strip is_percent time_str) in
    let* percent := pf_truediv x (Fin 100) in
    let duration := pf_mul total_duration percent in
    Ok (Fin 0, duration)
  else if contains "-" time_str then
    match split "-" time_str with
    | [a; b] =>
        let* start := py_float a in
        let* end_ := py_float b in
        Ok (start, end_)
    | _ => Raise ValueError
    end
  else
    let* position := py_float time_str in
    Ok (position, pf_add position (Fin 1)).

Definition parse_time_range (time_str : string) (total_duration : pyfloat)
  : result interval :=
  try_except (parse_time_range_body time_str total_duration)
    (fun _ => Ok default_range).

(** ** extract_noise_clip *)

(** [l[start:stop]]: negative indices count from the end, and both are
    clipped to the length. *)
Definition slice_index (len i : Z) : Z :=
  if (i <? 0)%Z then Z.max (i + len) 0 else Z.min i len.

Definition py_slice {A : Type} (l : list A) (start stop : Z) : list A :=
  let len := Z.of_nat (List.length l) in
  let a := slice_index len start in
  let b := slice_index len stop in
  firstn (Z.to_nat (b - a)) (skipn (Z.to_nat a) l).

(** Lines 100 and 101: the two clamping assignments. *)
Definition clamp_start (start_time total_duration : pyfloat) : pyfloat :=
  py_max (Fin 0) (py_min start_time (pf_sub total_duration (Fin 0.1))).

Definition clamp_end (start_time end_time total_duration : pyfloat) : pyfloat :=
  py_max (pf_add start_time (Fin 0.1)) (py_min end_time total_duration).

Definition extract_noise_clip {A : Type} (audio : list A) (sr : Z)
    (time_range : interval) (total_duration : pyfloat) : result (list A) :=
  let '(start_time, end_time) := time_range in
  let start_time := clamp_start start_time total_duration in
  let end_time := clamp_end start_time end_time total_duration in
  let* start_sample := py_int (pf_mul start_time (pf_of_int sr)) in
  let* end_sample := py_int (pf_mul end_time (pf_of_int sr)) in
  Ok (py_slice audio start_sample end_sample).

(** ** PROFILE_SETTINGS *)

Record NoiseProfile := {
  stationary : bool;
  prop_decrease : Q;
  n_fft : Z;
  win_length : Z;
  hop_length : Z;
  n_std_thresh_stationary : Q
}.

Definition footsteps_profile : NoiseProfile :=
  {| stationary := true; prop_decrease := 0.9; n_fft := 512;
     win_length := 512; hop_length := 128; n_std_thresh_stationary := 1.5 |}.
Definition rain_profile : NoiseProfile :=
  {| stationary := false; prop_decrease := 0.8; n_fft := 2048;
     win_length := 2048; hop_length := 512; n_std_thresh_stationary := 2.0 |}.
Definition wind_profile : NoiseProfile :=
  {| stationary := false; prop_decrease := 0.7; n_fft := 1024;
     win_length := 1024; hop_length := 256; n_std_thresh_stationary := 1.8 |}.
Definition voice_profile : NoiseProfile :=
  {| stationary := true; prop_decrease := 1.0; n_fft := 1024;
     win_length := 1024; hop_length := 256; n_std_thresh_stationary := 1.5 |}.
Definition default_profile : NoiseProfile :=
  {| stationary := true; prop_decrease := 0.95; n_fft := 1024;
     win_length := 1024; hop_length := 256; n_std_thresh_stationary := 1.7 |}.

Definition PROFILE_SETTINGS : gmap string NoiseProfile :=
  <["footsteps" := footsteps_profile]>
  (<["rain" := rain_profile]>
  (<["wind" := wind_profile]>
  (<["voice" := voice_profile]>
  (<["default" := default_profile]> ∅)))).

(** [d[key]] *)
Definition dict_getitem {V : Type} (d : gmap string V) (key : string) : result V :=
  match d !! key with
  | Some v => Ok v
  | None => Raise KeyError
  end.

(** [d.get(key, dflt)] *)
Definition dict_get {V : Type} (d : gmap string V) (key : string) (dflt : V) : V :=
  match d !! key with
  | Some v => v
  | None => dflt
  end.

(** Line 126: the default is evaluated first, then the lookup. *)
Definition resolve_profile (profile : string) : result NoiseProfile :=
  let* dflt := dict_getitem PROFILE_SETTINGS "default" in
  Ok (dict_get PROFILE_SETTINGS profile dflt).

(** ** Audio data and the file system *)

(** What [sf.read] returns: samples of one channel, or frames of several. *)
Inductive ndarray :=
| Mono (samples : list Q)
| Multi (frames : list (list Q)).

(** [len(audio)] *)
Definition array_len (a : ndarray) : nat :=
  match a with
  | Mono samples => List.length samples
  | Multi frames => List.length frames
  end.

Definition mean (xs : list Q) : Q :=
  (fold_right Qplus 0 xs / inject_Z (Z.of_nat (List.length xs)))%Q.

(** Lines 116 and 117: [np.mean(audio, axis=1)] when there are two axes. *)
Definition to_mono (a : ndarray) : list Q :=
  match a with
  | Mono samples => samples
  | Multi frames => map mean frames
  end.

Inductive content :=
| Audio (data : ndarray) (sr : Z)
| Undecodable.

#[local] Set Warnings "-register-all".
Inductive node :=
| File (c : content)
| Dir (entries : list (string * node)).
#[local] Set Warnings "register-all".

Definition path : Type := list string.

Fixpoint entry (name : string) (entries : list (string * node)) : option node :=
  match entries with
  | [] => None
  | (k, n) :: rest => if (k =? name)%string then Some n else entry name rest
  end.

(** Replaces the entry of that name, or adds it at the end. *)
Fixpoint set_entry (name : string) (n : node) (entries : list (string * node))
  : list (string * node) :=
  match entries with
  | [] => [(name, n)]
  | (k, m) :: rest =>
      if (k =? name)%string then (k, n) :: rest
      else (k, m) :: set_entry name n rest
  end.

Fixpoint fs_lookup (p : path) (fs : node) {struct p} : option node :=
  match p with
  | [] => Some fs
  | name :: rest =>
      match fs with
      | File _ => None
      | Dir entries =>
          match entry name entries with
          | Some child => fs_lookup rest child
          | None => None
          end
      end
  end.

(** [os.path.isfile] and [os.path.isdir] *)
Definition isfile (p : path) (fs : node) : bool :=
  match fs_lookup p fs with
  | Some (File _) => true
  | _ => false
  end.

Definition isdir (p : path) (fs : node) : bool :=
  match fs_lookup p fs with
  | Some (Dir _) => true
  | _ => false
  end.

(** [Path.mkdir(parents=True, exist_ok=True)]: missing directories are
    created along the path; a file on the way is an [OSError]. *)
Fixpoint mkdir_parents (p : path) (fs : node) {struct p} : result node :=
  match fs with
  | File _ => Raise OSError
  | Dir entries =>
      match p with
      | [] => Ok fs
      | name :: rest =>
          let child := default (Dir []) (entry name entries) in
          let* child' := mkdir_parents rest child in
          Ok (Dir (set_entry name child' entries))
      end
  end.

(** Creates or replaces the file at [p]; its directory must exist and [p]
    must not be a directory. *)
Fixpoint write_file (p : path) (c : content) (fs : node) {struct p} : result node :=
  match fs with
  | File _ => Raise LibsndfileError
  | Dir entries =>
      match p with
      | [] => Raise LibsndfileError
      | [name] =>
          match entry name entries with
          | Some (Dir _) => Raise LibsndfileError
          | _ => Ok (Dir (set_entry name (File c) entries))
          end
      | name :: rest =>
          match entry name entries with
          | Some child =>
              let* child' := write_file rest c child in
              Ok (Dir (set_entry name child' entries))
          | None => Raise LibsndfileError
          end
      end
  end.

(** [sf.read(path)] *)
Definition sf_read (p : path) (fs : node) : result (ndarray * Z) :=
  match fs_lookup p fs with
  | Some (File (Audio data sr)) => Ok (data, sr)
  | _ => Raise LibsndfileError
  end.

(** [p.name] *)
Definition name (p : path) : string := List.last p "".

(** [p.parent] *)
Definition parent (p : path) : path := removelast p.

(** [p.relative_to(base)] *)
Fixpoint relative_to (p base : path) : result path :=
  match base, p with
  | [], _ => Ok p
  | b :: base', c :: p' =>
      if (b =? c)%string then relative_to p' base' else Raise ValueError
  | _ :: _, [] => Raise ValueError
  end.

(** ** Path.glob *)

(** Matching of one path component against a pattern with [*] and [?]
    (case-sensitive, as on POSIX; the program's patterns have no [[...]]). *)
Fixpoint fnmatch (pat s : string) : bool :=
  match pat with
  | EmptyString => is_empty s
  | String c pat' =>
      if Ascii.eqb c "*" then
        (fix star (t : string) : bool :=
           fnmatch pat' t
           || match t with
              | EmptyString => false
              | String _ t' => star t'
              end) s
      else
        match s with
        | EmptyString => false
        | String d s' =>
            (Ascii.eqb c "?" || Ascii.eqb c d) && fnmatch pat' s'
        end
  end.

(** A directory and all directories below it, parents first. *)
Fixpoint walk_dirs (here : path) (n : node) : list (path * node) :=
  match n with
  | File _ => []
  | Dir entries =>
      (here, n)
      :: flat_map (fun e : string * node =>
                     walk_dirs (here ++ [fst e])%list (snd e))
                  entries
  end.

(** The entries of a directory whose name matches the pattern. *)
Definition matching_entries (pat : string) (at_ : path * node) : list (path * node) :=
  match snd at_ with
  | File _ => []
  | Dir entries =>
      map (fun e : string * node => ((fst at_ ++ [fst e])%list, snd e))
          (filter (fun e : string * node => fnmatch pat (fst e) = true) entries)
  end.

Fixpoint select (parts : list string) (at_ : path * node) : list (path * node) :=
  match parts with
  | [] => [at_]
  | part :: rest =>
      if (part =? "**")%string
      then flat_map (select rest) (walk_dirs (fst at_) (snd at_))
      else flat_map (select rest) (matching_entries part at_)
  end.

(** [dir.glob(pattern)] *)
Definition glob (dir : path) (pattern : string) (fs : node) : list path :=
  match fs_lookup dir fs with
  | Some n => map fst (select (split "/" pattern) (dir, n))
  | None => []
  end.

Definition extensions : list string := [".flac"; ".wav"; ".mp3"; ".ogg"; ".aiff"].

(** Lines 209 to 219: the collection of the audio files of a directory. *)
Definition collect_audio_files (input_dir : path) (recursive : bool) (fs : node)
  : list path :=
  let search_pattern := if recursive then "**/*" else "*" in
  flat_map (fun ext =>
              (glob input_dir (search_pattern ++ ext) fs
               ++ glob input_dir (search_pattern ++ upper ext) fs)%list)
           extensions.

(** ** process_file and main *)

Record Args := {
  input : option path;
  output : path;
  profile : string;
  noise_position : string;
  noise_duration : pyfloat;
  recursive : bool;
  verbose : bool;
  test_noise : bool
}.

(** What a run reports at its end. *)
Inductive report :=
| SingleFile (success : bool)
| NoAudioFiles
| Batch (success_count total : nat).

(** The exit status of the process for the way [main] ends. *)
Definition exit_status {A : Type} (r : result A) : Z :=
  match r with
  | Ok _ => 0
  | Raise (SystemExit code) => code
  | Raise _ => 1
  end.

Section Collaborators.

(** [nr.reduce_noise(y, y_noise, sr, **params)] *)
Variable reduce_noise : list Q -> list Q -> Z -> NoiseProfile -> result (list Q).

(** Whether [sf.write] can encode a file of that name. *)
Variable sf_can_write : string -> bool.

(** [sf.write(path, data, sr)] *)
Definition sf_write (p : path) (data : list Q) (sr : Z) (fs : node) : result node :=
  if sf_can_write (name p) then write_file p (Audio (Mono data) sr) fs
  else Raise LibsndfileError.

(** The body of the [try] block of [process_file]: the file system after
    the write. *)
Definition process_file_body (input_path output_path : path) (profile : string)
    (noise_position : string) (noise_duration : pyfloat) (fs : node)
  : result node :=
  let* (audio, sr) := sf_read input_path fs in
  let* total_duration := int_truediv (Z.of_nat (array_len audio)) sr in
  let audio := to_mono audio in
  let* time_range := parse_time_range noise_position total_duration in
  let* noise_clip := extract_noise_clip audio sr time_range total_duration in
  let* params := resolve_profile profile in
  let* cleaned_audio := reduce_noise audio noise_clip sr params in
  sf_write output_path cleaned_audio sr fs.

Definition process_file (input_path output_path : path) (profile : string)
    (noise_position : string) (noise_duration : pyfloat) (fs : node)
  : result (bool * node) :=
  try_except
    (let* fs' := process_file_body input_path output_path profile
                   noise_position noise_duration fs in
     Ok (true, fs'))
    (fun _ => Ok (false, fs)).

Definition output_filename (args : Args) (file : path) : string :=
  if test_noise args then "noise_sample_" ++ name file
  else "cleaned_" ++ name file.

(** Lines 231 to 256: the loop over the collected files. *)
Fixpoint process_all (args : Args) (input_dir : path) (files : list path)
    (success_count : nat) (fs : node) : result nat * node :=
  match files with
  | [] => (Ok success_count, fs)
  | file :: rest =>
      match relative_to file input_dir with
      | Raise e => (Raise e, fs)
      | Ok rel =>
          let output_path :=
            (output args ++ parent rel ++ [output_filename args file])%list in
          match mkdir_parents (parent output_path) fs with
          | Raise e => (Raise e, fs)
          | Ok fs1 =>
              match process_file file output_path (profile args)
                      (noise_position args) (noise_duration args) fs1 with
              | Raise e => (Raise e, fs1)
              | Ok (success, fs2) =>
                  process_all args input_dir rest
                    (if success then S success_count else success_count) fs2
              end
          end
      end
  end.

Definition main (args : Args) (fs : node) : result report * node :=
  let output_dir := output args in
  match mkdir_parents output_dir fs with
  | Raise e => (Raise e, fs)
  | Ok fs1 =>
      match input args with
      | None => (Raise TypeError, fs1)
      | Some input_path =>
          if isfile input_path fs1 then
            let output_path := (output_dir ++ [output_filename args input_path])%list in
            match process_file input_path output_path (profile args)
                    (noise_position args) (noise_duration args) fs1 with
            | Raise e => (Raise e, fs1)
            | Ok (success, fs2) => (Ok (SingleFile success), fs2)
            end
          else if isdir input_path fs1 then
            let audio_files :=
              collect_audio_files input_path (recursive args) fs1 in
            match audio_files with
            | [] => (Ok NoAudioFiles, fs1)
            | _ =>
                match process_all args input_path audio_files 0 fs1 with
                | (Raise e, fs2) => (Raise e, fs2)
                | (Ok success_count, fs2) =>
                    (Ok (Batch success_count (List.length audio_files)), fs2)
                end
            end
          else (Raise (SystemExit 1), fs1)
      end
  end.

End Collaborators.

(** ** Sample inputs *)

Definition identity_denoiser (y y_noise : list Q) (sr : Z) (params : NoiseProfile)
  : result (list Q) := Ok y.

Definition any_format (file_name : string) : bool := true.

Definition sample_tree : node :=
  Dir [("in", Dir [("a.wav", File (Audio (Mono (repeat 0%Q 40)) 10));
                   ("b.Wav", File (Audio (Mono (repeat 0%Q 40)) 10));
                   ("c.FLAC", File Undecodable);
                   ("d.wav", Dir []);
                   (".wav", File Undecodable);
                   ("sub",
                    Dir [("e.mp3",
                          File (Audio (Multi (repeat [1%Q; 3%Q] 40)) 10));
                         ("notes.txt", File Undecodable)])])].

(** ** Predicates used in the statements *)

(** Every character of the string satisfies [P]. *)
Fixpoint all_chars (P : ascii -> bool) (s : string) : bool :=
  match s with
  | EmptyString => true
  | String c s' => P c && all_chars P s'
  end.

Definition is_alpha (c : ascii) : bool := is_upper c || is_lower c.

(** The characters of a decimal literal, of a float literal (with the
    letters of [inf], [infinity], [nan]), and of an argument [float] accepts
    (with white space and underscores). *)
Definition numeric_char (c : ascii) : bool :=
  is_digit c || Ascii.eqb c "." || Ascii.eqb c "e" || Ascii.eqb c "E"
  || Ascii.eqb c "+" || Ascii.eqb c "-".

Definition float_char (c : ascii) : bool := numeric_char c || is_alpha c.

Definition float_input_char (c : ascii) : bool :=
  float_char c || is_space c || Ascii.eqb c "_".

(** The expressions that no rule of the parser accepts: not a keyword, and
    the number (or the two numbers) that the rule for the expression reads
    is not one [float] accepts. *)
Definition malformed (time_str : string) : Prop :=
  lower time_str <> "start" /\ lower time_str <> "end" /\
  if contains "%" time_str then raises (py_float (strip is_percent time_str))
  else if contains "-" time_str then
    forall a b, split "-" time_str = [a; b] ->
                raises (py_float a) \/ raises (py_float b)
  else raises (py_float time_str).

(** [clamp(x, lo, hi)] of the specification: [x] brought into [lo, hi]. *)
Definition clamp (x lo hi : Q) : Q :=
  if Qlt_le_dec x lo then lo else if Qlt_le_dec hi x then hi else x.

(** The extractor as the specification words it, the sample indices being
    [round(start' * sample_rate)] and [round(end' * sample_rate)]. *)
Definition extract_noise_clip_rounding {A : Type} (audio : list A) (sr : Z)
    (time_range : interval) (total_duration : pyfloat) : result (list A) :=
  let '(start_time, end_time) := time_range in
  let start_time := clamp_start start_time total_duration in
  let end_time := clamp_end start_time end_time total_duration in
  let* start_sample := py_round (pf_mul start_time (pf_of_int sr)) in
  let* end_sample := py_round (pf_mul end_time (pf_of_int sr)) in
  Ok (py_slice audio start_sample end_sample).

(** The value of the parameter [profile] of [process_file], whose default
    is "default", for a caller that passes a name or none. *)
Definition profile_argument (given : option string) : string :=
  match given with
  | Some profile => profile
  | None => "default"
  end.

(** The arguments with another value of [--noise-duration]. *)
Definition with_noise_duration (d : pyfloat) (args : Args) : Args :=
  {| input := input args; output := output args; profile := profile args;
     noise_position := noise_position args; noise_duration := d;
     recursive := recursive args; verbose := verbose args;
     test_noise := test_noise args |}.

(** A run on a recording of twenty seconds at 10 Hz whose k-th sample is k,
    with [--test-noise --noise-position 5%]. *)
Definition recording_20s : list Q :=
  map (fun k : nat => inject_Z (Z.of_nat k)) (seq 0 200).

Definition recording_tree : node :=
  Dir [("rec.wav", File (Audio (Mono recording_20s) 10))].

Definition test_noise_args : Args :=
  {| input := Some ["rec.wav"]; output := ["out"]; profile := "default";
     noise_position := "5%"; noise_duration := Fin 1; recursive := false;
     verbose := false; test_noise := true |}.

(** A run on an input path that does not exist, in an empty directory. *)
Definition missing_input_args : Args :=
  {| input := Some ["missing.wav"]; output := ["cleaned_audio"];
     profile := "default"; noise_position := "start";
     noise_duration := Fin 1; recursive := false; verbose := false;
     test_noise := false |}.

(** A run whose missing input path is also its output directory. *)
Definition input_is_output_args : Args :=
  {| input := Some ["audio"]; output := ["audio"];
     profile := "default"; noise_position := "start";
     noise_duration := Fin 1; recursive := false; verbose := false;
     test_noise := false |}.

(** The ten spellings the collection globs for. *)
Definition audio_suffixes : list string :=
  flat_map (fun ext => [ext; upper ext]) extensions.

Definition ends_with (s sfx : string) : Prop := exists pre, s = pre ++ sfx.

(** The node found below a directory along a relative path. *)
Inductive reaches : node -> path -> node -> Prop :=
| reaches_here n : reaches n [] n
| reaches_step entries name child rel n :
    In (name, child) entries -> reaches child rel n ->
    reaches (Dir entries) (name :: rel) n.




(** No [*] and no [?]. *)
Definition no_wildcard (c : ascii) : bool :=
  negb (Ascii.eqb c "*" || Ascii.eqb c "?").

(** The string begins with a digit. *)
Definition starts_with_digit (s : string) : bool :=
  match s with
  | EmptyString => false
  | String c _ => is_digit c
  end.

(** The content of the file at [p]: none when [p] is missing or a
    directory. *)
Definition file_at (p : path) (fs : node) : option content :=
  match fs_lookup p fs with
  | Some (File c) => Some c
  | _ => None
  end.

(** Nothing is removed from [fs] to [fs']: what was a directory is one, and
    what was a file is one. *)
Definition keeps_paths (fs fs' : node) : Prop :=
  forall q, (isdir q fs = true -> isdir q fs' = true)
            /\ (isfile q fs = true -> isfile q fs' = true).

(** The arguments with another value of [--test-noise]. *)
Definition with_test_noise (b : bool) (args : Args) : Args :=
  {| input := input args; output := output args; profile := profile args;
     noise_position := noise_position args;
     noise_duration := noise_duration args; recursive := recursive args;
     verbose := verbose args; test_noise := b |}.

(** A run on a directory with a file in it and one in a directory below,
    with [--recursive]. *)
Definition album_tree : node :=
  Dir [("album",
        Dir [("one.wav", File (Audio (Mono (repeat 1%Q 20)) 10));
             ("side",
              Dir [("two.OGG",
                    File (Audio (Multi (repeat [1%Q; 3%Q] 30)) 10))])])].

Definition album_args : Args :=
  {| input := Some ["album"]; output := ["clean"]; profile := "voice";
     noise_position := "10%"; noise_duration := Fin 1; recursive := true;
     verbose := false; test_noise := false |}.

(** No two strings of the list are equal. *)
Fixpoint distinct (l : list string) : bool :=
  match l with
  | [] => true
  | x :: l' => negb (existsb (String.eqb x) l') && distinct l'
  end.

(** No directory of the tree has two entries of one name, as in a file
    system. *)
Fixpoint unique_names (n : node) : bool :=
  match n with
  | File _ => true
  | Dir entries =>
      distinct (map fst entries)
      && (fix below (es : list (string * node)) : bool :=
            match es with
            | [] => true
            | e :: es' => unique_names (snd e) && below es'
            end) entries
  end.

(** A run on [sample_tree] with [--recursive]. *)
Definition sample_args : Args :=
  {| input := Some ["in"]; output := ["out"]; profile := "rain";
     noise_position := "end"; noise_duration := Fin 1; recursive := true;
     verbose := false; test_noise := false |}.

(** * Properties *)

(** ** Fallible code *)

Lemma raises_Raise {A : Type} (e : exn) : raises (@Raise A e).
Proof. by exists e. Qed.

Lemma Ok_not_raises {A : Type} (a : A) : ~ raises (Ok a).
Proof. intros [e He]. discriminate. Qed.

(** ** Characters and strings *)

Ltac each_char c :=
  destruct c as [[] [] [] [] [] [] [] []]; vm_compute; try reflexivity;
  try discriminate; try tauto.

Lemma all_chars_app P s t :
  all_chars P (s ++ t) = all_chars P s && all_chars P t.
Proof.
  induction s as [|c s IH]; simpl; [done|].
  by rewrite IH, andb_assoc.
Qed.

Lemma all_chars_weaken (P R : ascii -> bool) s :
  (forall c, P c = true -> R c = true) ->
  all_chars P s = true -> all_chars R s = true.
Proof.
  intros HPR. induction s as [|c s IH]; simpl; [done|].
  rewrite !andb_true_iff. intros [Hc Hs]. auto.
Qed.

Lemma all_chars_contains P c s :
  all_chars P s = true -> contains c s = true -> P c = true.
Proof.
  induction s as [|d s IH]; simpl; [discriminate|].
  rewrite andb_true_iff, orb_true_iff. intros [Hd Hs] [Heq|Hin]; [|auto].
  apply Ascii.eqb_eq in Heq. by subst.
Qed.

Lemma contains_app c s t :
  contains c (s ++ t) = contains c s || contains c t.
Proof.
  induction s as [|d s IH]; simpl; [done|].
  by rewrite IH, orb_assoc.
Qed.


Lemma lower_char_minus c : Ascii.eqb (lower_char c) "-" = Ascii.eqb c "-".
Proof. each_char c. Qed.


Lemma contains_lower_minus s : contains "-" (lower s) = contains "-" s.
Proof.
  induction s as [|c s IH]; simpl; [done|].
  by rewrite lower_char_minus, IH.
Qed.

Lemma lower_char_alpha c : is_lower (lower_char c) = true -> is_alpha c = true.
Proof. each_char c. Qed.

Lemma lower_all_alpha s t :
  lower s = t -> all_chars is_lower t = true -> all_chars is_alpha s = true.
Proof.
  revert t. induction s as [|c s IH]; intros t; simpl; [done|].
  intros <-. simpl. rewrite !andb_true_iff. intros [Hc Hs].
  split; [by apply lower_char_alpha|by apply (IH (lower s))].
Qed.

(** ** What [float] accepts *)

Lemma take_digits_spec s ds rest :
  take_digits s = (ds, rest) ->
  s = ds ++ rest /\ all_chars is_digit ds = true.
Proof.
  revert ds rest. induction s as [|c s IH]; simpl; intros ds rest.
  - intros [= <- <-]. done.
  - destruct (is_digit c) eqn:Hc.
    + destruct (take_digits s) as [ds' rest'] eqn:Htd.
      intros [= <- <-]. destruct (IH _ _ eq_refl) as [-> Hds].
      simpl. by rewrite Hc, Hds.
    + intros [= <- <-]. done.
Qed.

Lemma take_sign_spec s neg rest :
  take_sign s = (neg, rest) ->
  (s = rest /\ neg = false) \/ (s = String "+" rest /\ neg = false)
  \/ (s = String "-" rest /\ neg = true).
Proof.
  unfold take_sign. destruct s as [|c s]; [intros [= <- <-]; auto|].
  destruct (Ascii.eqb c "-") eqn:Hm.
  { apply Ascii.eqb_eq in Hm. subst c. intros [= <- <-]. auto. }
  destruct (Ascii.eqb c "+") eqn:Hp.
  { apply Ascii.eqb_eq in Hp. subst c. intros [= <- <-]. auto. }
  intros H. left.
  revert H Hm Hp. each_char c; intros [= <- <-]; auto.
Qed.

Lemma append_cons c s t : String c s ++ t = String c (s ++ t).
Proof. reflexivity. Qed.

Lemma append_empty_l s : "" ++ s = s.
Proof. reflexivity. Qed.

Lemma append_empty_r s : s ++ "" = s.
Proof. induction s as [|c s IH]; [done|]. by rewrite append_cons, IH. Qed.

Lemma append_assoc s t u : (s ++ t) ++ u = s ++ (t ++ u).
Proof. induction s as [|c s IH]; [done|]. by rewrite !append_cons, IH. Qed.

Lemma digit_is_numeric c : is_digit c = true -> numeric_char c = true.
Proof. unfold numeric_char. intros ->. done. Qed.

Lemma parse_exponent_chars r e :
  parse_exponent r = Some e -> all_chars numeric_char r = true.
Proof.
  unfold parse_exponent.
  destruct (take_sign r) as [neg r'] eqn:Hs.
  destruct (take_digits r') as [ds rest] eqn:Hd.
  destruct (is_empty ds || negb (is_empty rest)) eqn:He; [discriminate|].
  intros _. apply orb_false_iff in He as [_ Hrest].
  destruct rest; [|discriminate].
  apply take_digits_spec in Hd as [-> Hds]. rewrite append_empty_r in Hs.
  apply (all_chars_weaken _ _ _ digit_is_numeric) in Hds.
  apply take_sign_spec in Hs as [[-> _]|[[-> _]|[-> _]]]; simpl; by rewrite ?Hds.
Qed.

Lemma take_fraction_chars s fp rest :
  take_fraction s = (fp, rest) ->
  all_chars numeric_char rest = true -> all_chars numeric_char s = true.
Proof.
  unfold take_fraction. destruct s as [|c r]; [by intros [= <- <-]|].
  destruct (Ascii.eqb c ".") eqn:Hdot.
  - apply Ascii.eqb_eq in Hdot. subst c. intros Htd Hrest.
    apply take_digits_spec in Htd as [-> Hfp].
    apply (all_chars_weaken _ _ _ digit_is_numeric) in Hfp.
    simpl. by rewrite all_chars_app, Hfp, Hrest.
  - intros H Hrest.
    assert (rest = String c r) as ->; [|done].
    revert H Hdot. each_char c; by intros [= <- <-].
Qed.

Lemma parse_exponent_part_chars s e :
  parse_exponent_part s = Some e -> all_chars numeric_char s = true.
Proof.
  destruct s as [|c r]; [done|]. simpl.
  destruct (Ascii.eqb c "e" || Ascii.eqb c "E") eqn:Hc; [|done].
  intros He. rewrite (parse_exponent_chars _ _ He), andb_true_r.
  unfold numeric_char.
  apply orb_true_iff in Hc as [->| ->]; by rewrite ?orb_true_r.
Qed.

Lemma parse_decimal_chars s q :
  parse_decimal s = Some q -> all_chars numeric_char s = true.
Proof.
  unfold parse_decimal.
  destruct (take_digits s) as [ip r1] eqn:Hip.
  destruct (take_fraction r1) as [fp r2] eqn:Hfp.
  destruct (is_empty ip && is_empty fp); [discriminate|].
  destruct (parse_exponent_part r2) as [e|] eqn:He; [|discriminate].
  intros _. apply take_digits_spec in Hip as [-> Hip].
  apply (all_chars_weaken _ _ _ digit_is_numeric) in Hip.
  rewrite all_chars_app, Hip. simpl.
  eapply take_fraction_chars; [done|].
  by eapply parse_exponent_part_chars.
Qed.

Lemma numeric_is_float_char c : numeric_char c = true -> float_char c = true.
Proof. unfold float_char. by intros ->. Qed.

Lemma alpha_is_float_char c : is_alpha c = true -> float_char c = true.
Proof. unfold float_char. intros ->. by rewrite orb_true_r. Qed.

Lemma float_of_stripped_chars s v :
  float_of_stripped s = Ok v -> all_chars float_char s = true.
Proof.
  unfold float_of_stripped.
  destruct (take_sign s) as [neg body] eqn:Hs.
  assert (Hbody : all_chars float_char body = true ->
                  all_chars float_char s = true).
  { apply take_sign_spec in Hs as [[-> _]|[[-> _]|[-> _]]]; simpl; auto. }
  destruct ((lower body =? "inf")%string || (lower body =? "infinity")%string)
    eqn:Hinf.
  { intros _. apply Hbody.
    apply (all_chars_weaken _ _ _ alpha_is_float_char).
    apply orb_true_iff in Hinf as [H|H]; apply String.eqb_eq in H;
      by apply (lower_all_alpha _ _ H). }
  destruct (lower body =? "nan")%string eqn:Hnan.
  { intros _. apply Hbody.
    apply (all_chars_weaken _ _ _ alpha_is_float_char).
    apply String.eqb_eq in Hnan. by apply (lower_all_alpha _ _ Hnan). }
  destruct (parse_decimal body) as [q|] eqn:Hq; [|discriminate].
  intros _. apply Hbody.
  apply (all_chars_weaken _ _ _ numeric_is_float_char).
  by eapply parse_decimal_chars.
Qed.

Lemma lstrip_chars (P R : ascii -> bool) s :
  all_chars R (lstrip P s) = true ->
  all_chars (fun c => R c || P c) s = true.
Proof.
  induction s as [|c s IH]; simpl; [done|].
  destruct (P c) eqn:Hc.
  - intros H. by rewrite orb_true_r, IH.
  - simpl. rewrite !andb_true_iff. intros [HR Hs]. rewrite HR. split; [done|].
    eapply all_chars_weaken; [|exact Hs]. intros d ->. done.
Qed.

Lemma rstrip_chars (P R : ascii -> bool) s :
  all_chars R (rstrip P s) = true ->
  all_chars (fun c => R c || P c) s = true.
Proof.
  induction s as [|c s IH]; simpl; [done|].
  destruct (is_empty (rstrip P s) && P c) eqn:Hc.
  - apply andb_true_iff in Hc as [He Hc]. intros _.
    rewrite Hc, orb_true_r. simpl. apply IH.
    by destruct (rstrip P s).
  - simpl. rewrite !andb_true_iff. intros [HR Hs]. rewrite HR. auto.
Qed.

Lemma strip_chars (P R : ascii -> bool) s :
  all_chars R (strip P s) = true ->
  all_chars (fun c => R c || P c) s = true.
Proof.
  unfold strip. intros H. apply lstrip_chars, rstrip_chars in H.
  eapply all_chars_weaken; [|exact H]. simpl. intros c.
  by destruct (R c), (P c).
Qed.

Lemma remove_underscores_from_chars (R : ascii -> bool) prev s t :
  remove_underscores_from prev s = Some t ->
  all_chars R t = true ->
  all_chars (fun c => R c || Ascii.eqb c "_") s = true.
Proof.
  revert prev t. induction s as [|c s IH]; intros prev t; simpl; [done|].
  destruct (Ascii.eqb c "_") eqn:Hc.
  - destruct (is_digit prev); [|discriminate].
    intros H Ht. rewrite orb_true_r. simpl. by eapply IH.
  - destruct (Ascii.eqb prev "_" && negb (is_digit c)); [discriminate|].
    destruct (remove_underscores_from c s) as [t'|] eqn:Hrec; [|discriminate].
    intros [= <-]. simpl. rewrite !andb_true_iff. intros [HR Ht].
    rewrite HR. split; [done|]. by eapply IH.
Qed.

(** Every character of a string that [float] accepts is one of a float
    literal, white space or an underscore. *)
Lemma py_float_chars s v :
  py_float s = Ok v -> all_chars float_input_char s = true.
Proof.
  unfold py_float.
  destruct (remove_underscores s) as [t|] eqn:Ht; [|discriminate].
  intros H. apply float_of_stripped_chars, strip_chars in H.
  apply (remove_underscores_from_chars _ _ _ _ Ht) in H.
  eapply all_chars_weaken; [|exact H]. done.
Qed.

Lemma py_float_no_percent s v : py_float s = Ok v -> contains "%" s = false.
Proof.
  intros H. apply py_float_chars in H.
  destruct (contains "%" s) eqn:Hc; [|done].
  by apply (all_chars_contains _ _ _ H) in Hc.
Qed.

Lemma py_float_raises_ValueError s e : py_float s = Raise e -> e = ValueError.
Proof.
  unfold py_float, float_of_stripped.
  destruct (remove_underscores s) as [t|]; [|by intros [= <-]].
  destruct (take_sign (strip is_space t)) as [neg body].
  destruct (_ || _); [discriminate|].
  destruct (_ =? _)%string; [discriminate|].
  destruct (parse_decimal body); [discriminate|]. by intros [= <-].
Qed.

(** ** parse_time_range *)

Lemma pf_truediv_100 x : exists y, pf_truediv x (Fin 100) = Ok y.
Proof. destruct x; simpl; eauto. Qed.

Lemma parse_time_range_body_Exception s d e :
  parse_time_range_body s d = Raise e -> is_Exception e = true.
Proof.
  unfold parse_time_range_body.
  destruct (lower s =? "start")%string; [discriminate|].
  destruct (lower s =? "end")%string; [discriminate|].
  destruct (contains "%" s).
  { destruct (py_float _) as [x|e'] eqn:Hx; cbn [rbind].
    - destruct (pf_truediv_100 x) as [y ->]. discriminate.
    - intros [= <-]. by rewrite (py_float_raises_ValueError _ _ Hx). }
  destruct (contains "-" s).
  { destruct (split "-" s) as [|a [|b [|c l]]]; try by intros [= <-].
    destruct (py_float a) as [x|e'] eqn:Hx; cbn [rbind].
    - destruct (py_float b) as [y|e''] eqn:Hy; cbn [rbind]; [discriminate|].
      intros [= <-]. by rewrite (py_float_raises_ValueError _ _ Hy).
    - intros [= <-]. by rewrite (py_float_raises_ValueError _ _ Hx). }
  destruct (py_float s) as [x|e'] eqn:Hx; cbn [rbind]; [discriminate|].
  intros [= <-]. by rewrite (py_float_raises_ValueError _ _ Hx).
Qed.

Lemma parse_time_range_fallback s d :
  raises (parse_time_range_body s d) -> parse_time_range s d = Ok default_range.
Proof.
  intros [e He]. unfold parse_time_range. rewrite He. simpl.
  by rewrite (parse_time_range_body_Exception _ _ _ He).
Qed.

Lemma parse_time_range_total s d : exists i, parse_time_range s d = Ok i.
Proof.
  destruct (parse_time_range_body s d) as [i|e] eqn:Hb.
  - exists i. unfold parse_time_range. by rewrite Hb.
  - exists default_range. apply parse_time_range_fallback. rewrite Hb.
    apply raises_Raise.
Qed.

Lemma rbind_raises {A B : Type} (r : result A) (k : A -> result B) :
  raises r -> raises (rbind r k).
Proof. intros [e ->]. apply raises_Raise. Qed.

Lemma malformed_raises s d : malformed s <-> raises (parse_time_range_body s d).
Proof.
  unfold malformed, parse_time_range_body. split.
  - intros (Hs & He & H).
    apply String.eqb_neq in Hs, He. rewrite Hs, He.
    destruct (contains "%" s); [by apply rbind_raises|].
    destruct (contains "-" s); [|by apply rbind_raises].
    destruct (split "-" s) as [|a [|b [|c l]]]; try apply raises_Raise.
    destruct (H a b eq_refl) as [Ha|Hb]; [by apply rbind_raises|].
    destruct (py_float a); simpl; [by apply rbind_raises|apply raises_Raise].
  - destruct (lower s =? "start")%string eqn:Hs.
    { intros H. by apply Ok_not_raises in H. }
    destruct (lower s =? "end")%string eqn:He.
    { intros H. by apply Ok_not_raises in H. }
    apply String.eqb_neq in Hs, He. intros H. do 2 (split; [done|]).
    destruct (contains "%" s).
    { destruct (py_float _) as [x|e]; [|apply raises_Raise].
      cbn [rbind] in H. destruct (pf_truediv_100 x) as [y Hy]. rewrite Hy in H.
      by apply Ok_not_raises in H. }
    destruct (contains "-" s).
    { intros a b Hab. rewrite Hab in H.
      destruct (py_float a) as [x|e]; [|left; apply raises_Raise].
      destruct (py_float b) as [y|e]; [|right; apply raises_Raise].
      by apply Ok_not_raises in H. }
    destruct (py_float s) as [x|e]; [|apply raises_Raise].
    by apply Ok_not_raises in H.
Qed.

(** C5. The parser never raises: every call returns an interval.  Whenever
    the body of its [try] block raises, and so on every malformed
    expression, among them "abc", "1-2-3" and the empty string, the interval
    returned is the fallback (0.0, 1.0). *)
Theorem parse_time_range_never_raises :
  (forall s d, exists i, parse_time_range s d = Ok i)
  /\ (forall s d, raises (parse_time_range_body s d) ->
                  parse_time_range s d = Ok (Fin 0, Fin 1))
  /\ (forall s d, malformed s -> parse_time_range s d = Ok (Fin 0, Fin 1))
  /\ (malformed "abc" /\ malformed "1-2-3" /\ malformed "")
  /\ (forall d, parse_time_range "abc" d = Ok (Fin 0, Fin 1)
                /\ parse_time_range "1-2-3" d = Ok (Fin 0, Fin 1)
                /\ parse_time_range "" d = Ok (Fin 0, Fin 1)).
Proof.
  split; [apply parse_time_range_total|].
  split; [apply parse_time_range_fallback|].
  split.
  { intros s d H. apply parse_time_range_fallback. by apply malformed_raises. }
  split.
  { repeat split; try discriminate; apply raises_Raise. }
  intros d. repeat split; reflexivity.
Qed.





Lemma lower_with_minus s t :
  contains "-" s = true -> contains "-" t = false -> (lower s =? t)%string = false.
Proof.
  intros Hs Ht. apply String.eqb_neq. intros <-.
  rewrite contains_lower_minus in Ht. congruence.
Qed.




(** ** Negative positions *)

Lemma digit_value_nonneg c : is_digit c = true -> (0 <= digit_value c)%Z.
Proof.
  unfold is_digit, digit_value. intros H.
  apply andb_true_iff in H as [H _]. apply N.leb_le in H. lia.
Qed.

Lemma digits_to_Z_nonneg s acc :
  all_chars is_digit s = true -> (0 <= acc)%Z -> (0 <= digits_to_Z acc s)%Z.
Proof.
  revert acc. induction s as [|c s IH]; intros acc; simpl; [done|].
  rewrite andb_true_iff. intros [Hc Hs] Hacc. apply IH; [done|].
  pose proof (digit_value_nonneg _ Hc). lia.
Qed.

Lemma take_fraction_digits s fp rest :
  take_fraction s = (fp, rest) -> all_chars is_digit fp = true.
Proof.
  unfold take_fraction. destruct s as [|c r]; [by intros [= <- <-]|].
  destruct (Ascii.eqb c ".") eqn:Hdot.
  - apply Ascii.eqb_eq in Hdot. subst c. intros Htd.
    by apply take_digits_spec in Htd as [_ Hfp].
  - intros H. assert (fp = EmptyString) as ->; [|done].
    revert H Hdot. each_char c; by intros [= <- <-].
Qed.

Lemma parse_decimal_nonneg s q : parse_decimal s = Some q -> 0 <= q.
Proof.
  unfold parse_decimal.
  destruct (take_digits s) as [ip r1] eqn:Hip.
  destruct (take_fraction r1) as [fp r2] eqn:Hfp.
  destruct (is_empty ip && is_empty fp); [discriminate|].
  destruct (parse_exponent_part r2) as [e|]; [|discriminate].
  intros [= <-]. unfold decimal_value.
  apply take_digits_spec in Hip as [_ Hip].
  apply take_fraction_digits in Hfp.
  apply Qmult_le_0_compat; [|by apply Qpower_0_le].
  change 0 with (inject_Z 0). rewrite <- Zle_Qle.
  apply digits_to_Z_nonneg; [|done]. by rewrite all_chars_app, Hip, Hfp.
Qed.

Lemma float_of_stripped_negative t v :
  float_of_stripped t = Ok v -> pf_ltb v (Fin 0) = true ->
  exists body, t = String "-" body.
Proof.
  unfold float_of_stripped.
  destruct (take_sign t) as [neg body] eqn:Hs.
  assert (Hneg : neg = true -> exists body, t = String "-" body).
  { apply take_sign_spec in Hs as [[_ ->]|[[_ ->]|[-> _]]]; eauto;
      discriminate. }
  destruct (_ || _).
  { intros [= <-]. destruct neg; [auto|discriminate]. }
  destruct (_ =? _)%string; [by intros [= <-]|].
  destruct (parse_decimal body) as [q|] eqn:Hq; [|discriminate].
  intros [= <-]. destruct neg; [auto|]. simpl.
  apply parse_decimal_nonneg in Hq.
  destruct (Qlt_le_dec q 0); [lra|discriminate].
Qed.

Lemma lstrip_spec (P : ascii -> bool) s c body :
  lstrip P s = String c body ->
  exists ws, s = ws ++ String c body /\ all_chars P ws = true.
Proof.
  induction s as [|d s IH]; simpl; [discriminate|].
  destruct (P d) eqn:Hd.
  - intros H. destruct (IH H) as (ws & -> & Hws).
    exists (String d ws). simpl. by rewrite Hd, Hws.
  - intros [= -> ->]. by exists EmptyString.
Qed.

Lemma rstrip_spec (P : ascii -> bool) s :
  exists ws, s = rstrip P s ++ ws /\ all_chars P ws = true.
Proof.
  induction s as [|c s (ws & IH & Hws)]; simpl; [by exists EmptyString|].
  destruct (is_empty (rstrip P s) && P c) eqn:Hc.
  - apply andb_true_iff in Hc as [He Hc]. exists (String c s).
    split; [done|]. simpl. rewrite Hc. simpl.
    destruct (rstrip P s); [|discriminate]. simpl in IH. by subst.
  - exists ws. split; [|done]. rewrite append_cons. by rewrite <- IH.
Qed.

Lemma strip_spec (P : ascii -> bool) s c body :
  strip P s = String c body ->
  exists ws rest, s = ws ++ String c rest /\ all_chars P ws = true.
Proof.
  unfold strip. intros H.
  destruct (lstrip_spec _ _ _ _ H) as (ws & Hr & Hws).
  destruct (rstrip_spec P s) as (ws2 & Hs & _).
  exists ws, (body ++ ws2). split; [|done].
  rewrite Hs at 1. rewrite Hr. by rewrite append_assoc.
Qed.

Lemma space_not_digit c : is_space c = true -> is_digit c = false.
Proof. each_char c. Qed.

Lemma space_not_underscore c : is_space c = true -> Ascii.eqb c "_" = false.
Proof. each_char c. Qed.

Lemma space_not_minus c : is_space c = true -> Ascii.eqb c "-" = false.
Proof. each_char c. Qed.

Lemma remove_underscores_from_prefix ws prev s r :
  is_digit prev = false -> all_chars is_space ws = true ->
  remove_underscores_from prev s = Some (ws ++ String "-" r) ->
  exists r', s = ws ++ String "-" r'.
Proof.
  revert prev s. induction ws as [|w ws IH]; intros prev s Hprev Hws.
  - destruct s as [|c s]; simpl.
    { by destruct (Ascii.eqb prev "_"). }
    destruct (Ascii.eqb c "_"); [by rewrite Hprev|].
    destruct (_ && _); [discriminate|].
    destruct (remove_underscores_from c s); [|discriminate].
    intros [= -> _]. by exists s.
  - simpl in Hws. apply andb_true_iff in Hws as [Hw Hws].
    destruct s as [|c s]; simpl.
    { by destruct (Ascii.eqb prev "_"). }
    destruct (Ascii.eqb c "_"); [by rewrite Hprev|].
    destruct (_ && _); [discriminate|].
    destruct (remove_underscores_from c s) as [t|] eqn:Ht; [|discriminate].
    rewrite append_cons. intros [= -> ->].
    destruct (IH w s (space_not_digit _ Hw) Hws Ht) as [r' ->].
    by exists r'.
Qed.

Lemma split_nonempty sep s : exists piece pieces, split sep s = piece :: pieces.
Proof.
  induction s as [|c s (piece & pieces & IH)]; simpl; [eauto|].
  destruct (Ascii.eqb c sep); [eauto|]. rewrite IH. eauto.
Qed.

Lemma split_at_first sep ws r :
  contains sep ws = false ->
  split sep (ws ++ String sep r) = ws :: split sep r.
Proof.
  induction ws as [|c ws IH]; simpl.
  - intros _. by rewrite Ascii.eqb_refl.
  - rewrite orb_false_iff. intros [Hc Hws]. rewrite Hc, (IH Hws). done.
Qed.

Lemma spaces_without c ws :
  (forall d, is_space d = true -> Ascii.eqb d c = false) ->
  all_chars is_space ws = true -> contains c ws = false.
Proof.
  intros Hc. induction ws as [|d ws IH]; simpl; [done|].
  rewrite andb_true_iff. intros [Hd Hws]. by rewrite (Hc _ Hd), IH.
Qed.

Lemma strip_all (P : ascii -> bool) ws :
  all_chars P ws = true -> strip P ws = EmptyString.
Proof.
  intros Hws. unfold strip.
  assert (rstrip P ws = EmptyString) as ->; [|done].
  induction ws as [|c ws IH]; simpl; [done|].
  simpl in Hws. apply andb_true_iff in Hws as [Hc Hws].
  by rewrite (IH Hws), Hc.
Qed.

Lemma py_float_spaces ws : all_chars is_space ws = true -> raises (py_float ws).
Proof.
  intros Hws. unfold py_float, remove_underscores.
  assert (Hru : forall prev, Ascii.eqb prev "_" = false ->
                remove_underscores_from prev ws = Some ws).
  { induction ws as [|c ws IH]; intros prev Hprev; simpl; [by rewrite Hprev|].
    simpl in Hws. apply andb_true_iff in Hws as [Hc Hws].
    rewrite (space_not_underscore _ Hc), Hprev. simpl.
    by rewrite (IH Hws c (space_not_underscore _ Hc)). }
  rewrite Hru by done. rewrite (strip_all _ _ Hws). apply raises_Raise.
Qed.

(** C10. An expression that [float] reads as a negative number contains
    [-]; it is taken by the range rule, whose split into two numbers fails,
    and the parser returns the fallback (0.0, 1.0), never
    (position, position + 1.0). *)
Theorem negative_position_falls_back (s : string) (v d : pyfloat) :
  py_float s = Ok v -> pf_ltb v (Fin 0) = true ->
  contains "%" s = false
  /\ contains "-" s = true
  /\ raises (parse_time_range_body s d)
  /\ parse_time_range s d = Ok (Fin 0, Fin 1)
  /\ parse_time_range s d <> Ok (v, pf_add v (Fin 1)).
Proof.
  intros Hs Hv.
  pose proof (py_float_no_percent _ _ Hs) as Hpct.
  assert (Hform : exists ws r, s = ws ++ String "-" r
                               /\ all_chars is_space ws = true).
  { unfold py_float in Hs.
    destruct (remove_underscores s) as [t|] eqn:Ht; [|discriminate].
    destruct (float_of_stripped_negative _ _ Hs Hv) as [body Hbody].
    destruct (strip_spec _ _ _ _ Hbody) as (ws & rest & -> & Hws).
    destruct (remove_underscores_from_prefix ws Ascii.zero s rest eq_refl Hws Ht)
      as [r' ->]. eauto. }
  destruct Hform as (ws & r & -> & Hws).
  assert (Hminus : contains "-" (ws ++ String "-" r) = true).
  { rewrite contains_app. simpl. by rewrite orb_true_r. }
  assert (Hraises : raises (parse_time_range_body (ws ++ String "-" r) d)).
  { unfold parse_time_range_body.
    rewrite !(lower_with_minus _ _ Hminus) by done.
    rewrite Hpct, Hminus.
    rewrite split_at_first by (by apply (spaces_without _ _ space_not_minus)).
    destruct (split_nonempty "-" r) as (piece & pieces & ->).
    destruct pieces; [|apply raises_Raise].
    by apply rbind_raises, py_float_spaces. }
  pose proof (parse_time_range_fallback _ d Hraises) as Hfb.
  do 4 (split; [done|]). rewrite Hfb. intros [= <- _].
  simpl in Hv. destruct (Qlt_le_dec 0 0); [lra|discriminate].
Qed.

Lemma negative_position_falls_back_witness :
  py_float "-3" = Ok (Fin (-3))
  /\ parse_time_range "-3" (Fin 20) = Ok (Fin 0, Fin 1).
Proof.
  split; [reflexivity|].
  apply (negative_position_falls_back "-3" (Fin (-3)) (Fin 20));
    reflexivity.
Defined.

(** ** A [-] anywhere in a number *)

Lemma contains_first c s :
  contains c s = true ->
  exists a r, s = a ++ String c r /\ contains c a = false.
Proof.
  induction s as [|d s IH]; simpl; [discriminate|].
  destruct (Ascii.eqb d c) eqn:Hd; simpl.
  - apply Ascii.eqb_eq in Hd. subst d. intros _.
    by exists EmptyString, s.
  - intros H. destruct (IH H) as (a & r & -> & Ha).
    exists (String d a), r. simpl. by rewrite Hd, Ha.
Qed.

Lemma first_occurrence_unique c x y x' y' :
  x ++ String c y = x' ++ String c y' ->
  contains c x = false -> contains c x' = false -> x = x' /\ y = y'.
Proof.
  revert x'. induction x as [|d x IH]; intros [|d' x']; simpl.
  - by intros [= ->].
  - intros [= <- _] _. by rewrite Ascii.eqb_refl.
  - intros [= -> _]. by rewrite Ascii.eqb_refl.
  - intros [= <- H]. rewrite !orb_false_iff. intros [_ Hx] [_ Hx'].
    destruct (IH _ H Hx Hx') as [-> ->]. done.
Qed.

Lemma remove_underscores_from_split prev a r t :
  remove_underscores_from prev (a ++ String "-" r) = Some t ->
  exists ta tr,
    remove_underscores_from prev a = Some ta /\ t = ta ++ String "-" tr
    /\ (contains "-" a = false -> contains "-" ta = false).
Proof.
  revert prev t. induction a as [|c a IH]; intros prev t.
  - rewrite append_empty_l. simpl.
    destruct (Ascii.eqb prev "_") eqn:Hp; simpl; [discriminate|].
    destruct (remove_underscores_from "-" r) as [tr|]; [|discriminate].
    intros [= <-]. by exists EmptyString, tr.
  - rewrite append_cons. simpl.
    destruct (Ascii.eqb c "_") eqn:Hc.
    + destruct (is_digit prev); [|discriminate]. intros H.
      destruct (IH _ _ H) as (ta & tr & Hta & -> & Hm).
      exists ta, tr. split; [done|]. split; [done|].
      rewrite orb_false_iff. intros [_ Ha]. auto.
    + destruct (Ascii.eqb prev "_" && negb (is_digit c)); [discriminate|].
      destruct (remove_underscores_from c (a ++ String "-" r)) as [t'|] eqn:Hrec;
        [|discriminate].
      intros [= <-]. destruct (IH _ _ Hrec) as (ta & tr & Hta & -> & Hm).
      exists (String c ta), tr. rewrite Hta. split; [done|]. split; [done|].
      simpl. rewrite !orb_false_iff. intros [Hc' Ha]. auto.
Qed.

Lemma rstrip_keeps (P : ascii -> bool) w :
  all_chars (fun c => negb (P c)) w = true -> rstrip P w = w.
Proof.
  induction w as [|c w IH]; simpl; [done|].
  rewrite andb_true_iff, negb_true_iff. intros [Hc Hw].
  by rewrite (IH Hw), Hc, andb_false_r.
Qed.

Lemma rstrip_app (P : ascii -> bool) x y :
  is_empty (rstrip P y) = false -> rstrip P (x ++ y) = x ++ rstrip P y.
Proof.
  intros Hy. induction x as [|d x IH]; [done|].
  rewrite !append_cons. simpl. rewrite IH.
  assert (is_empty (x ++ rstrip P y) = false) as ->; [|done].
  destruct x; [done|done].
Qed.

Lemma lstrip_app (P : ascii -> bool) x c y :
  P c = false -> lstrip P (x ++ String c y) = lstrip P x ++ String c y.
Proof.
  intros Hc. induction x as [|d x IH].
  - rewrite !append_empty_l. simpl. by rewrite Hc.
  - rewrite append_cons. simpl. destruct (P d); [done|done].
Qed.

Lemma lstrip_empty (P : ascii -> bool) s :
  lstrip P s = EmptyString -> all_chars P s = true.
Proof.
  induction s as [|c s IH]; simpl; [done|].
  destruct (P c); [done|discriminate].
Qed.

Lemma contains_lstrip (P : ascii -> bool) c s :
  contains c s = false -> contains c (lstrip P s) = false.
Proof.
  induction s as [|d s IH]; simpl; [done|].
  rewrite orb_false_iff. intros [Hd Hs].
  destruct (P d); [auto|]. simpl. by rewrite Hd, Hs.
Qed.

Lemma take_digits_rest s ds rest :
  take_digits s = (ds, rest) -> starts_with_digit rest = false.
Proof.
  revert ds rest. induction s as [|c s IH]; intros ds rest; simpl.
  - by intros [= <- <-].
  - destruct (is_digit c) eqn:Hc.
    + destruct (take_digits s) as [ds' rest'] eqn:Htd.
      intros [= <- <-]. by eapply IH.
    + intros [= <- <-]. done.
Qed.

Lemma take_digits_app ds rest :
  all_chars is_digit ds = true -> starts_with_digit rest = false ->
  take_digits (ds ++ rest) = (ds, rest).
Proof.
  intros Hds Hrest. induction ds as [|c ds IH].
  - rewrite append_empty_l. destruct rest as [|d rest]; [done|].
    simpl in *. by rewrite Hrest.
  - simpl in Hds. apply andb_true_iff in Hds as [Hc Hds].
    rewrite append_cons. simpl. by rewrite Hc, (IH Hds).
Qed.

Lemma digits_without_minus ds :
  all_chars is_digit ds = true -> contains "-" ds = false.
Proof.
  intros H. destruct (contains "-" ds) eqn:Hc; [|done].
  by apply (all_chars_contains _ _ _ H) in Hc.
Qed.

Lemma take_fraction_spec s fp rest :
  take_fraction s = (fp, rest) ->
  all_chars is_digit fp = true
  /\ (s = String "." (fp ++ rest) /\ starts_with_digit rest = false
      \/ fp = EmptyString /\ s = rest /\ forall r, s <> String "." r).
Proof.
  unfold take_fraction. destruct s as [|c r].
  { intros [= <- <-]. split; [done|]. right. done. }
  destruct (Ascii.eqb c ".") eqn:Hdot.
  - apply Ascii.eqb_eq in Hdot. subst c. intros Htd.
    pose proof (take_digits_rest _ _ _ Htd) as Hrest.
    apply take_digits_spec in Htd as [-> Hfp]. split; [done|]. by left.
  - intros H.
    assert (fp = EmptyString /\ rest = String c r) as [-> ->].
    { revert H Hdot. each_char c; by intros [= <- <-]. }
    split; [done|]. right. split; [done|]. split; [done|].
    intros r' [= -> _]. discriminate.
Qed.

Lemma parse_exponent_minus r e :
  parse_exponent r = Some e -> contains "-" r = true ->
  exists ds, r = String "-" ds.
Proof.
  unfold parse_exponent.
  destruct (take_sign r) as [neg r'] eqn:Hs.
  destruct (take_digits r') as [ds rest] eqn:Hd.
  destruct (is_empty ds || negb (is_empty rest)) eqn:He; [discriminate|].
  intros _. apply orb_false_iff in He as [_ Hrest].
  destruct rest; [|discriminate].
  apply take_digits_spec in Hd as [-> Hds]. rewrite append_empty_r in Hs.
  pose proof (digits_without_minus _ Hds) as Hm.
  apply take_sign_spec in Hs as [[-> _]|[[-> _]|[-> _]]]; simpl;
    rewrite ?Hm; try discriminate. eauto.
Qed.

Lemma parse_decimal_minus body q wb tr :
  parse_decimal body = Some q ->
  body = wb ++ String "-" tr -> contains "-" wb = false ->
  parse_decimal wb = None /\ all_chars is_alpha wb = false.
Proof.
  unfold parse_decimal at 1.
  destruct (take_digits body) as [ip r1] eqn:Hip.
  destruct (take_fraction r1) as [fp r2] eqn:Hfp.
  destruct (is_empty ip && is_empty fp) eqn:Hemp; [discriminate|].
  destruct (parse_exponent_part r2) as [e|] eqn:He; [|discriminate].
  intros _ Hbody Hwb.
  pose proof (take_digits_rest _ _ _ Hip) as Hr1.
  apply take_digits_spec in Hip as [-> Hip].
  pose proof (digits_without_minus _ Hip) as Hipm.
  apply take_fraction_spec in Hfp as [Hfpd Hfrac].
  pose proof (digits_without_minus _ Hfpd) as Hfpm.
  (* the part before the exponent: [ip ++ frac] *)
  assert (Hshape : exists frac,
    r1 = frac ++ r2 /\ contains "-" frac = false
    /\ (forall rest, starts_with_digit rest = false ->
                     (forall r, rest <> String "." r) ->
                     take_digits (ip ++ frac ++ rest) = (ip, frac ++ rest)
                     /\ take_fraction (frac ++ rest) = (fp, rest))
    /\ all_chars is_alpha (ip ++ frac ++ "e") = false).
  { destruct Hfrac as [[-> Hr2]|(-> & <- & Hnodot)].
    - exists (String "." fp). rewrite append_cons. split; [done|].
      split; [simpl; done|]. split.
      + intros rest Hrest _. split; [by apply take_digits_app|].
        rewrite append_cons. simpl. by apply take_digits_app.
      + rewrite all_chars_app. clear -Hemp Hip.
        destruct ip as [|c ip]; [done|]. simpl in *.
        apply andb_true_iff in Hip as [Hc _].
        assert (is_alpha c = false) as ->; [|done].
        revert Hc. clear. each_char c.
    - exists EmptyString. split; [done|]. split; [done|]. split.
      + intros rest Hrest Hnd. rewrite append_empty_l.
        split; [by apply take_digits_app|].
        unfold take_fraction. destruct rest as [|c rest]; [done|].
        destruct (Ascii.eqb c ".") eqn:Hc.
        * apply Ascii.eqb_eq in Hc. subst c. by destruct (Hnd rest).
        * revert Hc. clear. each_char c.
      + rewrite append_empty_l. clear -Hemp Hip.
        destruct ip as [|c ip]; [done|]. simpl in *.
        apply andb_true_iff in Hip as [Hc _].
        assert (is_alpha c = false) as ->; [|done].
        revert Hc. clear. each_char c. }
  destruct Hshape as (frac & -> & Hfracm & Happ & Halpha).
  (* the minus sign is the sign of the exponent *)
  assert (Hr2 : contains "-" r2 = true).
  { assert (H : contains "-" (ip ++ frac ++ r2) = true).
    { rewrite Hbody, contains_app. simpl. by rewrite orb_true_r. }
    rewrite !contains_app, Hipm, Hfracm in H. done. }
  destruct r2 as [|c r3]; [done|]. simpl in He.
  destruct (Ascii.eqb c "e" || Ascii.eqb c "E") eqn:Hc; [|discriminate].
  assert (Hr3 : contains "-" r3 = true).
  { simpl in Hr2. apply orb_true_iff in Hr2 as [H|H]; [|done].
    apply Ascii.eqb_eq in H. subst c. discriminate. }
  destruct (parse_exponent_minus _ _ He Hr3) as [ds ->].
  assert (Hwb' : wb = ip ++ frac ++ String c EmptyString).
  { assert (H : (ip ++ frac ++ String c EmptyString) ++ String "-" ds
                = wb ++ String "-" tr).
    { rewrite <- Hbody, !append_assoc. done. }
    apply first_occurrence_unique in H as [H _]; [done| |done].
    rewrite !contains_app, Hipm, Hfracm. simpl.
    apply orb_true_iff in Hc as [H'|H']; apply Ascii.eqb_eq in H';
      by subst c. }
  subst wb. split.
  - unfold parse_decimal.
    destruct (Happ (String c EmptyString)) as [-> ->].
    + apply orb_true_iff in Hc as [H'|H']; apply Ascii.eqb_eq in H';
        by subst c.
    + intros r [= -> _]. discriminate.
    + rewrite Hemp. simpl. by rewrite Hc.
  - rewrite !all_chars_app in *. simpl in *.
    destruct (all_chars is_alpha ip), (all_chars is_alpha frac); done.
Qed.

Lemma not_alpha_not_keyword body lit :
  all_chars is_alpha body = false -> all_chars is_lower lit = true ->
  (lower body =? lit)%string = false.
Proof.
  intros Hb Hl. apply String.eqb_neq. intros H.
  by rewrite (lower_all_alpha _ _ H Hl) in Hb.
Qed.

Lemma alpha_without_minus body :
  contains "-" body = true -> all_chars is_alpha body = false.
Proof.
  intros Hc. destruct (all_chars is_alpha body) eqn:Ha; [|done].
  by apply (all_chars_contains _ _ _ Ha) in Hc.
Qed.

Lemma float_of_stripped_minus w tr v :
  float_of_stripped (w ++ String "-" tr) = Ok v ->
  contains "-" w = false -> w <> EmptyString ->
  raises (float_of_stripped w).
Proof.
  intros Hu Hw Hne. destruct w as [|c w]; [done|]. clear Hne.
  simpl in Hw. apply orb_false_iff in Hw as [Hc Hw].
  assert (Hbody : exists wb,
    take_sign (String c w ++ String "-" tr) = (false, wb ++ String "-" tr)
    /\ take_sign (String c w) = (false, wb) /\ contains "-" wb = false).
  { rewrite append_cons. destruct (Ascii.eqb c "+") eqn:Hp.
    - apply Ascii.eqb_eq in Hp. subst c. by exists w.
    - exists (String c w). rewrite append_cons. simpl. rewrite Hc, Hw.
      split; [|split; [|done]]; revert Hc Hp; clear; each_char c. }
  destruct Hbody as (wb & Hs1 & Hs2 & Hwb).
  unfold float_of_stripped in *. rewrite Hs1 in Hu. rewrite Hs2.
  assert (Hminus : contains "-" (wb ++ String "-" tr) = true).
  { rewrite contains_app. simpl. by rewrite orb_true_r. }
  apply alpha_without_minus in Hminus.
  rewrite !(not_alpha_not_keyword _ _ Hminus) in Hu by done. simpl in Hu.
  destruct (parse_decimal (wb ++ String "-" tr)) as [q|] eqn:Hq;
    [|discriminate].
  destruct (parse_decimal_minus _ _ _ _ Hq eq_refl Hwb) as [-> Halpha].
  rewrite !(not_alpha_not_keyword _ _ Halpha) by done. apply raises_Raise.
Qed.

Lemma float_char_not_space c : float_char c = true -> is_space c = false.
Proof. each_char c. Qed.

Lemma py_float_before_minus a r v :
  py_float (a ++ String "-" r) = Ok v -> contains "-" a = false ->
  raises (py_float a).
Proof.
  unfold py_float, remove_underscores. intros H Ha.
  destruct (remove_underscores_from Ascii.zero (a ++ String "-" r)) as [t|]
    eqn:Ht; [|discriminate].
  destruct (remove_underscores_from_split _ _ _ _ Ht) as (ta & tr & -> & -> & Hm).
  specialize (Hm Ha).
  assert (Hstrip : strip is_space (ta ++ String "-" tr)
                   = lstrip is_space ta ++ String "-" (rstrip is_space tr)).
  { unfold strip. rewrite rstrip_app.
    - simpl. rewrite andb_false_r. by apply lstrip_app.
    - simpl. by rewrite andb_false_r. }
  rewrite Hstrip in H.
  pose proof (float_of_stripped_chars _ _ H) as Hchars.
  rewrite all_chars_app in Hchars. apply andb_true_iff in Hchars as [Hw _].
  destruct (lstrip is_space ta) as [|c w] eqn:Hl.
  - apply lstrip_empty in Hl. rewrite (strip_all _ _ Hl). apply raises_Raise.
  - assert (Hta : strip is_space ta = String c w).
    { unfold strip.
      destruct (lstrip_spec _ _ _ _ Hl) as (ws & Hta & Hws).
      assert (rstrip is_space ta = ta) as ->; [|done].
      rewrite Hta. rewrite rstrip_app; [f_equal|].
      + apply rstrip_keeps. eapply all_chars_weaken; [|exact Hw].
        intros d Hd. by rewrite (float_char_not_space _ Hd).
      + rewrite rstrip_keeps; [done|].
        eapply all_chars_weaken; [|exact Hw].
        intros d Hd. by rewrite (float_char_not_space _ Hd). }
    rewrite Hta. eapply float_of_stripped_minus; [exact H| |done].
    rewrite <- Hl. by apply contains_lstrip.
Qed.

(** X1. A number with [-] anywhere, such as "1e-3", is taken by the range
    rule as well: its split fails and the parser returns the fallback. *)
Theorem minus_in_number_falls_back (s : string) (v d : pyfloat) :
  py_float s = Ok v -> contains "-" s = true ->
  raises (parse_time_range_body s d)
  /\ parse_time_range s d = Ok (Fin 0, Fin 1).
Proof.
  intros Hs Hminus.
  assert (Hraises : raises (parse_time_range_body s d)).
  { unfold parse_time_range_body.
    rewrite !(lower_with_minus _ _ Hminus) by done.
    rewrite (py_float_no_percent _ _ Hs), Hminus.
    destruct (contains_first _ _ Hminus) as (a & r & -> & Ha).
    rewrite split_at_first by done.
    destruct (split_nonempty "-" r) as (piece & pieces & ->).
    destruct pieces; [|apply raises_Raise].
    by eapply rbind_raises, py_float_before_minus. }
  split; [done|]. by apply parse_time_range_fallback.
Qed.

Lemma minus_in_number_falls_back_witness :
  py_float "1e-3" = Ok (Fin 0.001)
  /\ parse_time_range "1e-3" (Fin 20) = Ok (Fin 0, Fin 1).
Proof.
  split; [reflexivity|].
  apply (minus_in_number_falls_back "1e-3" (Fin 0.001) (Fin 20));
    reflexivity.
Defined.

(** ** extract_noise_clip *)

Lemma clamp_start_spec (start_time : pyfloat) (d : Q) :
  0.1 <= d ->
  exists s', clamp_start start_time (Fin d) = Fin s'
             /\ 0 <= s' <= d - 0.1
             /\ (forall s, start_time = Fin s -> s' == clamp s 0 (d - 0.1)).
Proof.
  intros Hd. unfold clamp_start, py_max, py_min, clamp.
  destruct start_time as [s| | |]; simpl;
    repeat (destruct (Qlt_le_dec _ _); simpl);
    eexists; (split; [reflexivity|]); (split; [lra|]);
    intros s0 [= <-]; repeat (destruct (Qlt_le_dec _ _)); lra.
Qed.

Lemma clamp_end_spec (s' : Q) (end_time : pyfloat) (d : Q) :
  s' + 0.1 <= d ->
  exists e', clamp_end (Fin s') end_time (Fin d) = Fin e'
             /\ s' + 0.1 <= e' <= d
             /\ (forall e, end_time = Fin e -> e' == clamp e (s' + 0.1) d).
Proof.
  intros Hd. unfold clamp_end, py_max, py_min, clamp.
  destruct end_time as [e| | |]; simpl;
    repeat (destruct (Qlt_le_dec _ _); simpl);
    eexists; (split; [reflexivity|]); (split; [lra|]);
    intros e0 [= <-]; repeat (destruct (Qlt_le_dec _ _)); lra.
Qed.

Lemma py_int_floor (q : Q) : 0 <= q -> py_int (Fin q) = Ok (Qfloor q).
Proof.
  intros Hq. destruct q as [n m]. simpl. f_equal.
  apply Z.quot_div_nonneg; [|done].
  unfold Qle in Hq. simpl in Hq. lia.
Qed.

Lemma Qfloor_ge (z : Z) (x : Q) : inject_Z z <= x -> (z <= Qfloor x)%Z.
Proof. intros H. rewrite <- (Qfloor_Z z). by apply Qfloor_resp_le. Qed.

Lemma Qfloor_nonneg (x : Q) : 0 <= x -> (0 <= Qfloor x)%Z.
Proof. intros H. by apply (Qfloor_ge 0). Qed.


Lemma py_slice_in_range {A : Type} (l : list A) (a b : Z) :
  (0 <= a <= b)%Z -> (b <= Z.of_nat (List.length l))%Z ->
  py_slice l a b = firstn (Z.to_nat (b - a)) (skipn (Z.to_nat a) l)
  /\ Z.of_nat (List.length (py_slice l a b)) = (b - a)%Z.
Proof.
  intros Hab Hb. unfold py_slice, slice_index.
  destruct (Z.ltb_spec a 0); [lia|]. destruct (Z.ltb_spec b 0); [lia|].
  rewrite !Z.min_l by lia. split; [done|].
  rewrite length_firstn, length_skipn. lia.
Qed.

Lemma py_slice_nth {A : Type} (l : list A) (a b : Z) (k : nat) :
  (0 <= a <= b)%Z ->
  nth_error (py_slice l a b) k =
    if (a + Z.of_nat k <? b)%Z then nth_error l (Z.to_nat a + k) else None.
Proof.
  intros Hab. unfold py_slice, slice_index.
  destruct (Z.ltb_spec a 0); [lia|]. destruct (Z.ltb_spec b 0); [lia|].
  set (len := Z.of_nat (List.length l)).
  destruct (Z.ltb_spec (a + Z.of_nat k) b) as [Hk|Hk].
  - destruct (Z.le_gt_cases len (a + Z.of_nat k)) as [Hlen|Hlen].
    + rewrite (proj2 (nth_error_None l _)) by (subst len; lia).
      apply nth_error_None. rewrite length_firstn, length_skipn.
      subst len. lia.
    + rewrite nth_error_firstn.
      destruct (Nat.ltb_spec k (Z.to_nat (Z.min b len - Z.min a len))); [|lia].
      rewrite nth_error_skipn. f_equal. lia.
  - apply nth_error_None. rewrite length_firstn. lia.
Qed.

Lemma extract_noise_clip_indices {A : Type} (audio : list A) (sr : Z)
    (start_time end_time : pyfloat) (d : Q) :
  0.1 <= d -> (0 <= sr)%Z ->
  exists s' e' : Q,
    clamp_start start_time (Fin d) = Fin s'
    /\ clamp_end (Fin s') end_time (Fin d) = Fin e'
    /\ (forall s, start_time = Fin s -> s' == clamp s 0 (d - 0.1))
    /\ (forall e, end_time = Fin e -> e' == clamp e (s' + 0.1) d)
    /\ 0 <= s' /\ s' + 0.1 <= e' /\ e' <= d
    /\ extract_noise_clip audio sr (start_time, end_time) (Fin d)
       = Ok (py_slice audio (Qfloor (s' * inject_Z sr))
                            (Qfloor (e' * inject_Z sr))).
Proof.
  intros Hd Hsr.
  destruct (clamp_start_spec start_time d Hd) as (s' & Hs' & [Hs0 Hs1] & Hps).
  assert (Hd' : s' + 0.1 <= d) by lra.
  destruct (clamp_end_spec s' end_time d Hd') as (e' & He' & [He0 He1] & Hpe).
  exists s', e'. do 7 (split; [done|]).
  assert (Hq : 0 <= inject_Z sr).
  { change 0 with (inject_Z 0). by rewrite <- Zle_Qle. }
  unfold extract_noise_clip. rewrite Hs', He'. cbn [pf_mul pf_of_int].
  rewrite !py_int_floor by nra. reflexivity.
Qed.




(** C4, as amended.  The clamped interval is converted to sample indices by
    [int], that is by truncation (the products are not negative, so each
    index is the largest integer not above its product), and the slice is
    half-open: its k-th sample is the sample of index a + k of the track as
    long as a + k < b. *)
Theorem extract_noise_clip_truncates {A : Type} (audio : list A) (sr : Z)
    (start_time end_time : pyfloat) (d : Q) :
  0.1 <= d -> (0 <= sr)%Z ->
  exists (s' e' : Q) (a b : Z),
    clamp_start start_time (Fin d) = Fin s'
    /\ clamp_end (Fin s') end_time (Fin d) = Fin e'
    /\ py_int (pf_mul (Fin s') (pf_of_int sr)) = Ok a
    /\ py_int (pf_mul (Fin e') (pf_of_int sr)) = Ok b
    /\ inject_Z a <= s' * inject_Z sr < inject_Z a + 1
    /\ inject_Z b <= e' * inject_Z sr < inject_Z b + 1
    /\ extract_noise_clip audio sr (start_time, end_time) (Fin d)
       = Ok (py_slice audio a b)
    /\ forall k : nat,
         nth_error (py_slice audio a b) k
         = if (a + Z.of_nat k <? b)%Z
           then nth_error audio (Z.to_nat a + k) else None.
Proof.
  intros Hd Hsr.
  destruct (extract_noise_clip_indices audio sr start_time end_time d Hd Hsr)
    as (s' & e' & Hs' & He' & _ & _ & Hs0 & Hse & Hed & Hx).
  assert (Hq : 0 <= inject_Z sr).
  { change 0 with (inject_Z 0). by rewrite <- Zle_Qle. }
  exists s', e', (Qfloor (s' * inject_Z sr)), (Qfloor (e' * inject_Z sr)).
  do 2 (split; [done|]). cbn [pf_mul pf_of_int].
  split; [apply py_int_floor; nra|]. split; [apply py_int_floor; nra|].
  split. { split; [apply Qfloor_le|]. rewrite <- (inject_Z_plus _ 1). apply Qlt_floor. }
  split. { split; [apply Qfloor_le|]. rewrite <- (inject_Z_plus _ 1). apply Qlt_floor. }
  split; [done|]. intros k. apply py_slice_nth. split.
  - apply Qfloor_nonneg. nra.
  - apply Qfloor_resp_le. nra.
Qed.

Lemma extract_noise_clip_truncates_witness :
  0.1 <= 2 /\ (0 <= 7)%Z
  /\ exists a b : Z,
       extract_noise_clip [0; 1; 2; 3; 4; 5; 6; 7; 8; 9; 10; 11; 12; 13]%Z 7
         (Fin 0.25, Fin 1.25) (Fin 2)
       = Ok (py_slice [0; 1; 2; 3; 4; 5; 6; 7; 8; 9; 10; 11; 12; 13]%Z a b)
       /\ inject_Z a <= 1.75 /\ inject_Z b <= 8.75.
Proof.
  split; [discriminate|]. split; [discriminate|].
  destruct (extract_noise_clip_truncates
              [0; 1; 2; 3; 4; 5; 6; 7; 8; 9; 10; 11; 12; 13]%Z 7
              (Fin 0.25) (Fin 1.25) 2)
    as (s' & e' & a & b & Hs & He & _ & _ & [Ha _] & [Hb _] & Hx & _);
    [discriminate|discriminate|].
  injection Hs as <-. injection He as <-.
  exists a, b. split; [exact Hx|]. split; [exact Ha|exact Hb].
Defined.

(** C4 as stated fails: at 7 Hz the interval (0.25, 1.25) of a two-second
    track has the products 1.75 and 8.75; the code takes the samples 1 to 7,
    rounding would take the samples 2 to 8. *)
Lemma extract_noise_clip_does_not_round :
  extract_noise_clip [0; 1; 2; 3; 4; 5; 6; 7; 8; 9; 10; 11; 12; 13]%Z 7
    (Fin 0.25, Fin 1.25) (Fin 2) = Ok [1; 2; 3; 4; 5; 6; 7]%Z
  /\ extract_noise_clip_rounding
       [0; 1; 2; 3; 4; 5; 6; 7; 8; 9; 10; 11; 12; 13]%Z 7
       (Fin 0.25, Fin 1.25) (Fin 2) = Ok [2; 3; 4; 5; 6; 7; 8]%Z
  /\ extract_noise_clip [0; 1; 2; 3; 4; 5; 6; 7; 8; 9; 10; 11; 12; 13]%Z 7
       (Fin 0.25, Fin 1.25) (Fin 2)
     <> extract_noise_clip_rounding
          [0; 1; 2; 3; 4; 5; 6; 7; 8; 9; 10; 11; 12; 13]%Z 7
          (Fin 0.25, Fin 1.25) (Fin 2).
Proof. split; [reflexivity|]. split; [reflexivity|]. discriminate. Qed.

(** ** Profiles *)

Lemma PROFILE_SETTINGS_unknown (profile : string) :
  profile <> "footsteps" -> profile <> "rain" -> profile <> "wind" ->
  profile <> "voice" -> profile <> "default" ->
  PROFILE_SETTINGS !! profile = None.
Proof.
  intros. unfold PROFILE_SETTINGS.
  rewrite !lookup_insert_ne by done. apply lookup_empty.
Qed.

(** C7. Resolving a profile never fails.  A name that is not a key of the
    table, and the name a caller leaves out, resolve to the bundle of
    "default"; the five keys resolve to their own bundles; two resolutions
    of one name give equal bundles. *)
Theorem resolve_profile_never_fails :
  (forall profile, exists params, resolve_profile profile = Ok params)
  /\ (forall profile, PROFILE_SETTINGS !! profile = None ->
                      resolve_profile profile = Ok default_profile)
  /\ (forall profile,
        profile <> "footsteps" -> profile <> "rain" -> profile <> "wind" ->
        profile <> "voice" -> profile <> "default" ->
        resolve_profile profile = resolve_profile "default")
  /\ resolve_profile (profile_argument None) = Ok default_profile
  /\ (resolve_profile "footsteps" = Ok footsteps_profile
      /\ resolve_profile "rain" = Ok rain_profile
      /\ resolve_profile "wind" = Ok wind_profile
      /\ resolve_profile "voice" = Ok voice_profile
      /\ resolve_profile "default" = Ok default_profile)
  /\ (forall profile p1 p2,
        resolve_profile profile = Ok p1 -> resolve_profile profile = Ok p2 ->
        p1 = p2).
Proof.
  assert (Hdflt : dict_getitem PROFILE_SETTINGS "default" = Ok default_profile)
    by reflexivity.
  assert (Hnone : forall profile, PROFILE_SETTINGS !! profile = None ->
                  resolve_profile profile = Ok default_profile).
  { intros profile H. unfold resolve_profile, dict_get.
    rewrite Hdflt. simpl. by rewrite H. }
  split.
  { intros profile. unfold resolve_profile. rewrite Hdflt. simpl. eauto. }
  split; [exact Hnone|]. split.
  { intros profile H1 H2 H3 H4 H5.
    by rewrite (Hnone _ (PROFILE_SETTINGS_unknown _ H1 H2 H3 H4 H5)). }
  split; [reflexivity|]. split; [by repeat split|].
  intros profile p1 p2 H1 H2. congruence.
Qed.

(** ** The file system *)

Lemma entry_set_entry name n entries :
  entry name (set_entry name n entries) = Some n.
Proof.
  induction entries as [|[k m] entries IH]; simpl.
  - by rewrite String.eqb_refl.
  - destruct (k =? name)%string eqn:Hk; simpl; by rewrite Hk.
Qed.

Lemma entry_set_entry_ne name other n entries :
  other <> name -> entry other (set_entry name n entries) = entry other entries.
Proof.
  intros Hne. induction entries as [|[k m] entries IH]; simpl.
  - apply String.eqb_neq in Hne. by rewrite String.eqb_sym, Hne.
  - destruct (k =? name)%string eqn:Hk; simpl.
    + apply String.eqb_eq in Hk. subst k.
      assert ((name =? other)%string = false) as ->; [|done].
      apply String.eqb_neq. congruence.
    + by rewrite IH.
Qed.


Lemma mkdir_parents_isdir p fs fs1 :
  mkdir_parents p fs = Ok fs1 -> isdir p fs1 = true.
Proof.
  unfold isdir. revert fs fs1.
  induction p as [|name rest IH]; intros [c|entries] fs1; simpl; try done.
  - by intros [= <-].
  - destruct (mkdir_parents rest _) as [child'|e'] eqn:Hrec; simpl; [|done].
    intros [= <-]. rewrite entry_set_entry. by eapply IH.
Qed.





(** ** process_file and main *)

Section Runs.

Variable reduce_noise : list Q -> list Q -> Z -> NoiseProfile -> result (list Q).
Variable sf_can_write : string -> bool.

Lemma process_all_noise_duration args input_dir files n fs d1 d2 :
  process_all reduce_noise sf_can_write (with_noise_duration d1 args)
    input_dir files n fs
  = process_all reduce_noise sf_can_write (with_noise_duration d2 args)
      input_dir files n fs.
Proof.
  revert n fs. induction files as [|file files IH]; intros n fs; [done|].
  simpl. destruct (relative_to file input_dir) as [rel|e]; [|done].
  change (output_filename (with_noise_duration d1 args) file)
    with (output_filename (with_noise_duration d2 args) file).
  destruct (mkdir_parents _ fs) as [fs1|e]; [|done].
  change (process_file reduce_noise sf_can_write file ?o ?p ?q d1 fs1)
    with (process_file reduce_noise sf_can_write file o p q d2 fs1).
  destruct (process_file _ _ _ _ _ _ _ fs1) as [[success fs2]|e]; [|done].
  apply IH.
Qed.

(** C9. The noise duration is not used: with the other arguments fixed,
    any two values of it give the same success flag and the same file
    system after the call, in [process_file] and in a whole run. *)
Theorem noise_duration_is_not_used :
  (forall input_path output_path profile noise_position d1 d2 fs,
      process_file reduce_noise sf_can_write input_path output_path profile
        noise_position d1 fs
      = process_file reduce_noise sf_can_write input_path output_path profile
          noise_position d2 fs)
  /\ (forall args d1 d2 fs,
        main reduce_noise sf_can_write (with_noise_duration d1 args) fs
        = main reduce_noise sf_can_write (with_noise_duration d2 args) fs).
Proof.
  split; [reflexivity|]. intros args d1 d2 fs. unfold main.
  cbn [with_noise_duration input output profile noise_position recursive
       noise_duration].
  destruct (mkdir_parents (output args) fs) as [fs1|e]; [|done].
  destruct (input args) as [input_path|]; [|done].
  destruct (isfile input_path fs1); [reflexivity|].
  destruct (isdir input_path fs1); [|done].
  destruct (collect_audio_files _ _ _) as [|file files]; [done|].
  by rewrite (process_all_noise_duration args _ _ _ _ d1 d2).
Qed.

Lemma process_file_body_steps input_path output_path profile noise_position
    noise_duration fs audio sr total_duration time_range noise_clip params
    cleaned_audio :
  sf_read input_path fs = Ok (audio, sr) ->
  int_truediv (Z.of_nat (array_len audio)) sr = Ok total_duration ->
  parse_time_range noise_position total_duration = Ok time_range ->
  extract_noise_clip (to_mono audio) sr time_range total_duration
    = Ok noise_clip ->
  resolve_profile profile = Ok params ->
  reduce_noise (to_mono audio) noise_clip sr params = Ok cleaned_audio ->
  process_file_body reduce_noise sf_can_write input_path output_path profile
    noise_position noise_duration fs
  = sf_write sf_can_write output_path cleaned_audio sr fs.
Proof.
  intros Hread Hdur Hparse Hclip Hparams Hnr. unfold process_file_body.
  rewrite Hread. cbn [rbind]. rewrite Hdur. cbn [rbind].
  rewrite Hparse. cbn [rbind]. rewrite Hclip. cbn [rbind].
  rewrite Hparams. cbn [rbind]. by rewrite Hnr.
Qed.



(** C1: what the code does.  With [--test-noise], the file written under
    the name prefixed with noise_sample_ holds what the denoiser returned
    for the whole track, not the noise clip. *)
Theorem test_noise_writes_denoised_track (cleaned_audio : list Q) :
  sf_can_write "noise_sample_rec.wav" = true ->
  reduce_noise recording_20s (firstn 10 recording_20s) 10 default_profile
    = Ok cleaned_audio ->
  extract_noise_clip recording_20s 10 (Fin 0, Fin (20 * (5 / 100))) (Fin 20)
    = Ok (firstn 10 recording_20s)
  /\ main reduce_noise sf_can_write test_noise_args recording_tree
     = (Ok (SingleFile true),
        Dir [("rec.wav", File (Audio (Mono recording_20s) 10));
             ("out",
              Dir [("noise_sample_rec.wav",
                    File (Audio (Mono cleaned_audio) 10))])]).
Proof.
  intros Hfmt Hnr. split; [reflexivity|].
  unfold main. cbn [output input test_noise_args].
  change (mkdir_parents ["out"] recording_tree)
    with (Ok (Dir [("rec.wav", File (Audio (Mono recording_20s) 10));
                   ("out", Dir [])])).
  cbv iota beta.
  set (fs1 := Dir [("rec.wav", File (Audio (Mono recording_20s) 10));
                   ("out", Dir [])]).
  change (isfile ["rec.wav"] fs1) with true. cbv iota.
  unfold process_file.
  rewrite (process_file_body_steps ["rec.wav"] _ "default" "5%" (Fin 1) fs1
             (Mono recording_20s) 10 (Fin (200 / 10))
             (Fin 0, Fin (200 / 10 * (5 / 100))) (firstn 10 recording_20s)
             default_profile cleaned_audio);
    try reflexivity; [|exact Hnr].
  unfold sf_write.
  change (name (["out"] ++ [output_filename test_noise_args ["rec.wav"]])%list)
    with "noise_sample_rec.wav".
  rewrite Hfmt. reflexivity.
Qed.

End Runs.

Lemma test_noise_writes_denoised_track_witness :
  List.length recording_20s = 200%nat
  /\ List.length (firstn 10 recording_20s) = 10%nat
  /\ main identity_denoiser any_format test_noise_args recording_tree
     = (Ok (SingleFile true),
        Dir [("rec.wav", File (Audio (Mono recording_20s) 10));
             ("out",
              Dir [("noise_sample_rec.wav",
                    File (Audio (Mono recording_20s) 10))])]).
Proof.
  split; [reflexivity|]. split; [reflexivity|].
  apply (test_noise_writes_denoised_track identity_denoiser any_format
           recording_20s); reflexivity.
Defined.



(** When the missing input path is the output directory itself, the run
    creates it, finds it empty and ends with status 0. *)
Lemma main_input_is_output_dir :
  fs_lookup ["audio"] (Dir []) = None
  /\ main identity_denoiser any_format input_is_output_args (Dir [])
     = (Ok NoAudioFiles, Dir [("audio", Dir [])])
  /\ exit_status
       (fst (main identity_denoiser any_format input_is_output_args (Dir [])))
     = 0%Z.
Proof. repeat split. Qed.


(** ** Path.glob and the collection of the audio files *)

Lemma node_nested_ind (P : node -> Prop) :
  (forall c, P (File c)) ->
  (forall entries, Forall (fun e => P (snd e)) entries -> P (Dir entries)) ->
  forall n, P n.
Proof.
  intros HF HD. fix IH 1. intros [c|entries]; [apply HF|]. apply HD.
  induction entries as [|[k m] entries IHentries]; constructor;
    [apply IH|apply IHentries].
Qed.

Lemma fnmatch_literal lit s :
  all_chars no_wildcard lit = true -> fnmatch lit s = true <-> s = lit.
Proof.
  revert s. induction lit as [|c lit IH]; intros s; simpl.
  - intros _. by destruct s.
  - rewrite andb_true_iff. unfold no_wildcard at 1.
    rewrite negb_true_iff, orb_false_iff. intros [[Hstar Hq] Hlit].
    rewrite Hstar, Hq. destruct s as [|d s]; [done|]. simpl.
    rewrite andb_true_iff, (IH _ Hlit), Ascii.eqb_eq. split.
    + by intros [-> ->].
    + by intros [= -> ->].
Qed.

Lemma fnmatch_star pat s :
  fnmatch (String "*" pat) s = true <->
  exists pre t, s = pre ++ t /\ fnmatch pat t = true.
Proof.
  simpl. induction s as [|d s IH].
  - rewrite orb_false_r. split.
    + intros H. by exists EmptyString, EmptyString.
    + intros (pre & t & Hs & Ht). destruct pre; [|done].
      rewrite append_empty_l in Hs. by subst t.
  - rewrite orb_true_iff, IH. split.
    + intros [H|(pre & t & -> & Ht)].
      * by exists EmptyString, (String d s).
      * by exists (String d pre), t.
    + intros (pre & t & Hs & Ht). destruct pre as [|c pre].
      * rewrite append_empty_l in Hs. subst t. by left.
      * rewrite append_cons in Hs. injection Hs as -> ->. right. eauto.
Qed.

Lemma fnmatch_star_literal lit s :
  all_chars no_wildcard lit = true ->
  fnmatch ("*" ++ lit) s = true <-> ends_with s lit.
Proof.
  intros Hlit. change ("*" ++ lit) with (String "*" lit).
  rewrite fnmatch_star. unfold ends_with. split.
  - intros (pre & t & -> & Ht). apply fnmatch_literal in Ht; [|done].
    subst t. by exists pre.
  - intros [pre ->]. exists pre, lit. split; [done|].
    by apply fnmatch_literal.
Qed.

Lemma reaches_snoc root rel entries name n :
  reaches root rel (Dir entries) -> In (name, n) entries ->
  reaches root (rel ++ [name])%list n.
Proof.
  intros Hr Hin. remember (Dir entries) as dir eqn:Hdir.
  induction Hr as [m|entries' name' child rel m Hin' Hr IH]; subst; simpl.
  - by eapply reaches_step; [|apply reaches_here].
  - eapply reaches_step; [done|]. by apply IH.
Qed.

Lemma reaches_snoc_inv root rel name n :
  reaches root (rel ++ [name])%list n ->
  exists entries, reaches root rel (Dir entries) /\ In (name, n) entries.
Proof.
  revert root. induction rel as [|k rel IH]; intros root Hr; simpl in Hr.
  - inversion Hr as [|entries name' child rel' m Hin Hr']; subst.
    inversion Hr'; subst. exists entries. split; [apply reaches_here|done].
  - inversion Hr as [|entries name' child rel' m Hin Hr']; subst.
    destruct (IH _ Hr') as (entries' & Hr'' & Hin').
    exists entries'. split; [|done]. by eapply reaches_step.
Qed.

Lemma fs_lookup_reaches p root n : fs_lookup p root = Some n -> reaches root p n.
Proof.
  revert root. induction p as [|name rest IH]; intros root; simpl.
  - intros [= ->]. apply reaches_here.
  - destruct root as [c|entries]; [done|].
    destruct (entry name entries) as [child|] eqn:He; [|done].
    intros H. eapply reaches_step; [|by apply IH].
    clear -He. induction entries as [|[k m] entries IHe]; [done|].
    simpl in He. destruct (k =? name)%string eqn:Hk.
    + apply String.eqb_eq in Hk. injection He as ->. subst. by left.
    + right. by apply IHe.
Qed.

Lemma In_walk_dirs here root p n :
  In (p, n) (walk_dirs here root) <->
  exists rel entries,
    n = Dir entries /\ reaches root rel n /\ p = (here ++ rel)%list.
Proof.
  revert here. induction root as [c|entries IH] using node_nested_ind;
    intros here; simpl.
  - split; [done|]. intros (rel & entries & -> & Hr & _). inversion Hr.
  - rewrite in_flat_map. split.
    + intros [[= <- <-]|((name & child) & Hin & Hw)].
      * exists [], entries. split; [done|]. split; [apply reaches_here|].
        by rewrite app_nil_r.
      * rewrite Forall_forall in IH. simpl in Hw.
        apply (IH _ (proj2 (list_elem_of_In _ _) Hin)) in Hw
          as (rel & entries' & -> & Hr & ->).
        exists (name :: rel), entries'. split; [done|].
        split; [by eapply reaches_step|]. by rewrite <- app_assoc.
    + intros (rel & entries' & -> & Hr & ->).
      inversion Hr as [|entries0 name child rel' m Hin Hr']; subst.
      * left. by rewrite app_nil_r.
      * right. exists (name, child). split; [done|]. simpl.
        rewrite Forall_forall in IH.
        apply (IH _ (proj2 (list_elem_of_In _ _) Hin)).
        exists rel', entries'. split; [done|]. split; [done|].
        by rewrite <- app_assoc.
Qed.

Lemma In_matching_entries pat here root p n :
  In (p, n) (matching_entries pat (here, root)) <->
  exists entries name,
    root = Dir entries /\ In (name, n) entries
    /\ fnmatch pat name = true /\ p = (here ++ [name])%list.
Proof.
  unfold matching_entries. simpl. destruct root as [c|entries].
  - split; [done|]. by intros (entries & name & [=] & _).
  - rewrite in_map_iff. split.
    + intros ((name & child) & [= <- <-] & Hin).
      apply list_elem_of_In, list_elem_of_filter in Hin as [Hm Hin].
      apply list_elem_of_In in Hin. exists entries, name. done.
    + intros (entries' & name & [= <-] & Hin & Hm & ->).
      exists (name, n). split; [done|].
      apply list_elem_of_In, list_elem_of_filter. split; [done|].
      by apply list_elem_of_In.
Qed.

Lemma flat_map_singleton {A : Type} (l : list A) :
  flat_map (fun x => [x]) l = l.
Proof. induction l as [|x l IH]; simpl; [done|]. by rewrite IH. Qed.

Lemma split_no_separator sep s : contains sep s = false -> split sep s = [s].
Proof.
  induction s as [|c s IH]; simpl; [done|].
  rewrite orb_false_iff. intros [Hc Hs]. by rewrite Hc, (IH Hs).
Qed.

Lemma split_cons sep c s :
  split sep (String c s)
  = if Ascii.eqb c sep then EmptyString :: split sep s
    else match split sep s with
         | piece :: pieces => String c piece :: pieces
         | [] => [String c EmptyString]
         end.
Proof. reflexivity. Qed.

Lemma select_name pat at_ :
  (pat =? "**")%string = false -> select [pat] at_ = matching_entries pat at_.
Proof. intros H. simpl. rewrite H. apply flat_map_singleton. Qed.

Lemma select_globstar rest at_ :
  select ("**" :: rest) at_
  = flat_map (select rest) (walk_dirs (fst at_) (snd at_)).
Proof. reflexivity. Qed.

Lemma star_literal_is_not_globstar sfx :
  all_chars no_wildcard sfx = true -> ("*" ++ sfx =? "**")%string = false.
Proof.
  intros H. apply String.eqb_neq. change ("*" ++ sfx) with (String "*" sfx).
  intros [= ->]. discriminate.
Qed.

Lemma In_glob_children dir sfx fs p :
  all_chars no_wildcard sfx = true -> contains "/" sfx = false ->
  In p (glob dir ("*" ++ sfx) fs) <->
  exists root name n,
    fs_lookup dir fs = Some root /\ p = (dir ++ [name])%list
    /\ reaches root [name] n /\ ends_with name sfx.
Proof.
  intros Hlit Hsep. unfold glob.
  assert (Hsplit : split "/" ("*" ++ sfx) = ["*" ++ sfx]).
  { apply split_no_separator. change ("*" ++ sfx) with (String "*" sfx).
    simpl. done. }
  rewrite Hsplit. destruct (fs_lookup dir fs) as [root|].
  - rewrite select_name by by apply star_literal_is_not_globstar.
    rewrite in_map_iff. split.
    + intros ((p' & n) & <- & Hin).
      apply In_matching_entries in Hin as (entries & name & -> & Hin & Hm & ->).
      exists (Dir entries), name, n. split; [done|]. split; [done|].
      split; [by eapply reaches_step; [|apply reaches_here]|].
      by apply fnmatch_star_literal.
    + intros (root' & name & n & [= <-] & -> & Hr & Hends).
      apply (reaches_snoc_inv _ []) in Hr as (entries & Hr & Hin).
      inversion Hr; subst. exists ((dir ++ [name])%list, n). split; [done|].
      apply In_matching_entries. exists entries, name.
      split; [done|]. split; [done|]. split; [|done].
      by apply fnmatch_star_literal.
  - split; [done|]. by intros (root & name & n & [=] & _).
Qed.

Lemma In_glob_descendants dir sfx fs p :
  all_chars no_wildcard sfx = true -> contains "/" sfx = false ->
  In p (glob dir ("**/*" ++ sfx) fs) <->
  exists root rel name n,
    fs_lookup dir fs = Some root /\ p = (dir ++ rel ++ [name])%list
    /\ reaches root (rel ++ [name])%list n /\ ends_with name sfx.
Proof.
  intros Hlit Hsep. unfold glob.
  assert (Hsplit : split "/" ("**/*" ++ sfx) = ["**"; "*" ++ sfx]).
  { change ("**/*" ++ sfx)
      with (String "*" (String "*" (String "/" (String "*" sfx)))).
    assert (H1 : split "/" (String "*" sfx) = ["*" ++ sfx]).
    { apply split_no_separator. simpl. done. }
    do 3 rewrite split_cons. rewrite H1. reflexivity. }
  rewrite Hsplit. destruct (fs_lookup dir fs) as [root|].
  - rewrite select_globstar. cbn [fst snd]. rewrite in_map_iff. split.
    + intros ((p' & n) & <- & Hin).
      apply in_flat_map in Hin as ((q & m) & Hw & Hin).
      rewrite select_name in Hin by by apply star_literal_is_not_globstar.
      apply In_walk_dirs in Hw as (rel & entries & -> & Hr & ->).
      apply In_matching_entries in Hin as (entries' & name & [= <-] & Hin & Hm & ->).
      exists root, rel, name, n. split; [done|].
      split; [by rewrite <- app_assoc|].
      split; [by eapply reaches_snoc|]. by apply fnmatch_star_literal.
    + intros (root' & rel & name & n & [= <-] & -> & Hr & Hends).
      apply reaches_snoc_inv in Hr as (entries & Hr & Hin).
      exists ((dir ++ rel ++ [name])%list, n). split; [done|].
      apply in_flat_map. exists ((dir ++ rel)%list, Dir entries). split.
      * apply In_walk_dirs. exists rel, entries. done.
      * rewrite select_name by by apply star_literal_is_not_globstar.
        apply In_matching_entries. exists entries, name.
        split; [done|]. split; [done|].
        split; [by apply fnmatch_star_literal|]. by rewrite <- app_assoc.
  - split; [done|]. by intros (root & rel & name & n & [=] & _).
Qed.

Lemma audio_suffixes_plain sfx :
  In sfx audio_suffixes ->
  all_chars no_wildcard sfx = true /\ contains "/" sfx = false.
Proof.
  intros H. repeat (destruct H as [<-|H]; [by split|]). destruct H.
Qed.

Lemma In_audio_suffixes sfx :
  In sfx audio_suffixes <->
  exists ext, In ext extensions /\ (sfx = ext \/ sfx = upper ext).
Proof.
  unfold audio_suffixes. rewrite in_flat_map. split.
  - intros (ext & Hext & [<-|[<-|[]]]); eauto.
  - intros (ext & Hext & [->| ->]); exists ext; simpl; auto.
Qed.

Lemma fs_lookup_app a b fs :
  fs_lookup (a ++ b)%list fs
  = match fs_lookup a fs with
    | Some r => fs_lookup b r
    | None => None
    end.
Proof.
  revert fs. induction a as [|name a IH]; intros fs; simpl; [done|].
  destruct fs as [c|entries]; [done|].
  destruct (entry name entries); [apply IH|done].
Qed.

Lemma In_collect_audio_files input_dir recursive fs p :
  In p (collect_audio_files input_dir recursive fs) <->
  exists root rel name n sfx,
    fs_lookup input_dir fs = Some root
    /\ p = (input_dir ++ rel ++ [name])%list
    /\ reaches root (rel ++ [name])%list n
    /\ (recursive = false -> rel = [])
    /\ In sfx audio_suffixes /\ ends_with name sfx.
Proof.
  unfold collect_audio_files. rewrite in_flat_map. split.
  - intros (ext & Hext & Hin).
    assert (He : In ext audio_suffixes) by (apply In_audio_suffixes; eauto).
    assert (Hu : In (upper ext) audio_suffixes)
      by (apply In_audio_suffixes; eauto).
    destruct (audio_suffixes_plain _ He) as [He1 He2].
    destruct (audio_suffixes_plain _ Hu) as [Hu1 Hu2].
    apply in_app_iff in Hin. destruct recursive.
    + destruct Hin as [Hin|Hin];
        apply In_glob_descendants in Hin as (root & rel & name & n & H);
        try done; destruct H as (Hroot & -> & Hr & Hends);
        [exists root, rel, name, n, ext|exists root, rel, name, n, (upper ext)];
        done.
    + destruct Hin as [Hin|Hin];
        apply In_glob_children in Hin as (root & name & n & H);
        try done; destruct H as (Hroot & -> & Hr & Hends);
        [exists root, [], name, n, ext|exists root, [], name, n, (upper ext)];
        done.
  - intros (root & rel & name & n & sfx & Hroot & -> & Hr & Hrec & Hsfx & Hends).
    destruct (audio_suffixes_plain _ Hsfx) as [H1 H2].
    apply In_audio_suffixes in Hsfx as (ext & Hext & Hcase).
    exists ext. split; [done|]. apply in_app_iff.
    destruct recursive.
    + destruct Hcase as [->| ->]; [left|right];
        apply In_glob_descendants; try done;
        exists root, rel, name, n; done.
    + rewrite (Hrec eq_refl) in *.
      destruct Hcase as [->| ->]; [left|right];
        apply In_glob_children; try done;
        exists root, name, n; done.
Qed.



(** * Further properties *)

(** ** parse_time_range: the range and the single position *)

Lemma lower_char_cases c x :
  is_lower x = true -> lower_char c = x -> c = x \/ c = upper_char x.
Proof.
  intros Hx <-. clear Hx.
  destruct c as [[] [] [] [] [] [] [] []]; vm_compute; auto.
Qed.

Lemma keyword_is_no_number s :
  lower s = "start" \/ lower s = "end" -> raises (py_float s).
Proof.
  intros [H|H].
  - destruct s as [|c1 [|c2 [|c3 [|c4 [|c5 [|c6 s]]]]]]; try discriminate.
    injection H as H1 H2 H3 H4 H5.
    apply lower_char_cases in H1, H2, H3, H4, H5; try done.
    destruct H1 as [->| ->], H2 as [->| ->], H3 as [->| ->],
      H4 as [->| ->], H5 as [->| ->]; apply raises_Raise.
  - destruct s as [|c1 [|c2 [|c3 [|c4 s]]]]; try discriminate.
    injection H as H1 H2 H3.
    apply lower_char_cases in H1, H2, H3; try done.
    destruct H1 as [->| ->], H2 as [->| ->], H3 as [->| ->];
      apply raises_Raise.
Qed.

Lemma number_is_no_keyword s v :
  py_float s = Ok v ->
  (lower s =? "start")%string = false /\ (lower s =? "end")%string = false.
Proof.
  intros Hs. split; apply String.eqb_neq; intros H;
    (destruct (keyword_is_no_number s) as [e He]; [auto|]); congruence.
Qed.

(** X3. A range "a-b" whose two numbers are written without [-] is
    returned as it stands, whatever the two values: they are neither put in
    order nor brought into the track. *)
Theorem parse_time_range_range (a b : string) (x y d : pyfloat) :
  py_float a = Ok x -> py_float b = Ok y ->
  contains "-" a = false -> contains "-" b = false ->
  parse_time_range (a ++ "-" ++ b) d = Ok (x, y).
Proof.
  intros Ha Hb Hma Hmb.
  assert (Hminus : contains "-" (a ++ "-" ++ b) = true).
  { rewrite contains_app. simpl. by rewrite orb_true_r. }
  assert (Hpct : contains "%" (a ++ "-" ++ b) = false).
  { rewrite contains_app, (py_float_no_percent _ _ Ha). simpl.
    apply (py_float_no_percent _ _ Hb). }
  unfold parse_time_range, parse_time_range_body.
  rewrite !(lower_with_minus _ _ Hminus) by done.
  rewrite Hpct, Hminus.
  change ("-" ++ b) with (String "-" b).
  rewrite split_at_first, (split_no_separator _ _ Hmb) by done.
  by rewrite Ha, Hb.
Qed.

Lemma parse_time_range_range_witness :
  parse_time_range "5-3" (Fin 2) = Ok (Fin 5, Fin 3).
Proof.
  apply (parse_time_range_range "5" "3" (Fin 5) (Fin 3) (Fin 2));
    reflexivity.
Defined.

(** X4. A number written without [-] is a position: the interval returned
    starts there and ends one second later, whatever the track's
    duration. *)
Theorem parse_time_range_position (s : string) (v d : pyfloat) :
  py_float s = Ok v -> contains "-" s = false ->
  parse_time_range s d = Ok (v, pf_add v (Fin 1)).
Proof.
  intros Hs Hminus. destruct (number_is_no_keyword _ _ Hs) as [H1 H2].
  unfold parse_time_range, parse_time_range_body.
  by rewrite H1, H2, (py_float_no_percent _ _ Hs), Hminus, Hs.
Qed.

Lemma parse_time_range_position_witness :
  parse_time_range "12.5" (Fin 3) = Ok (Fin 12.5, Fin (12.5 + 1)).
Proof.
  apply (parse_time_range_position "12.5" (Fin 12.5) (Fin 3)); reflexivity.
Defined.

(** ** extract_noise_clip: every interval, every finite duration *)

Lemma clamp_start_finite (start_time : pyfloat) (d : Q) :
  exists s', clamp_start start_time (Fin d) = Fin s' /\ 0 <= s'
             /\ (d < 0.1 -> s' = 0).
Proof.
  unfold clamp_start, py_max, py_min.
  destruct start_time as [s| | |]; simpl;
    repeat (destruct (Qlt_le_dec _ _); simpl);
    eexists; (split; [reflexivity|]); (split; [lra|]);
    intros Hd; try reflexivity; lra.
Qed.

Lemma clamp_end_finite (s' : Q) (end_time : pyfloat) (d : Q) :
  exists e', clamp_end (Fin s') end_time (Fin d) = Fin e' /\ s' + 0.1 <= e'
             /\ (d < s' + 0.1 -> e' = s' + 0.1).
Proof.
  unfold clamp_end, py_max, py_min.
  destruct end_time as [e| | |]; simpl;
    repeat (destruct (Qlt_le_dec _ _); simpl);
    eexists; (split; [reflexivity|]); (split; [lra|]);
    intros Hd; try reflexivity; lra.
Qed.


(** X6. A track shorter than 0.1 s is taken whole as the noise clip,
    whatever the interval asked for. *)
Theorem extract_noise_clip_short_track {A : Type} (audio : list A) (sr : Z)
    (time_range : interval) (d : Q) :
  d < 0.1 -> (0 <= sr)%Z ->
  inject_Z (Z.of_nat (List.length audio)) == d * inject_Z sr ->
  extract_noise_clip audio sr time_range (Fin d) = Ok audio.
Proof.
  intros Hd Hsr Hlen. destruct time_range as [start_time end_time].
  destruct (clamp_start_finite start_time d) as (s' & Hs' & _ & Hs0).
  rewrite (Hs0 Hd) in Hs'.
  destruct (clamp_end_finite 0 end_time d) as (e' & He' & _ & He0).
  rewrite He0 in He' by lra.
  assert (Hq : 0 <= inject_Z sr).
  { change 0 with (inject_Z 0). by rewrite <- Zle_Qle. }
  unfold extract_noise_clip. rewrite Hs', He'. cbn [pf_mul pf_of_int].
  rewrite (py_int_floor (0 * inject_Z sr)) by (clear -Hq; nra).
  rewrite (py_int_floor ((0 + 0.1) * inject_Z sr)) by (clear -Hq; nra).
  cbn [rbind]. f_equal.
  set (len := Z.of_nat (List.length audio)) in *.
  assert (Ha : Qfloor (0 * inject_Z sr) = 0%Z).
  { rewrite <- (Qfloor_Z 0) at 2. apply Qfloor_comp.
    change (inject_Z 0) with 0. clear. lra. }
  assert (Hb : (len <= Qfloor ((0 + 0.1) * inject_Z sr))%Z).
  { apply Qfloor_ge. clear -Hd Hlen Hq. nra. }
  assert (Hlen0 : (0 <= len)%Z) by (subst len; lia).
  rewrite Ha. unfold py_slice, slice_index. fold len.
  destruct (Z.ltb_spec 0 0); [lia|].
  destruct (Z.ltb_spec (Qfloor ((0 + 0.1) * inject_Z sr)) 0); [lia|].
  rewrite (Z.min_r _ len) by exact Hb. rewrite (Z.min_l 0 len) by exact Hlen0.
  rewrite Z.sub_0_r. simpl. subst len. rewrite Nat2Z.id. apply firstn_all.
Qed.

Lemma extract_noise_clip_short_track_witness :
  extract_noise_clip [1; 2; 3]%Z 100 (Fin 5, NaN) (Fin 0.03) = Ok [1; 2; 3]%Z.
Proof.
  apply (extract_noise_clip_short_track [1; 2; 3]%Z 100 (Fin 5, NaN) 0.03);
    [reflexivity|discriminate|reflexivity].
Defined.

(** X7. Clamping is idempotent: the clamped interval is clamped to itself,
    so extracting with it gives the same clip. *)
Theorem clamp_idempotent {A : Type} (audio : list A) (sr : Z)
    (start_time end_time : pyfloat) (d : Q) :
  let start' := clamp_start start_time (Fin d) in
  let end' := clamp_end start' end_time (Fin d) in
  clamp_start start' (Fin d) = start'
  /\ clamp_end start' end' (Fin d) = end'
  /\ extract_noise_clip audio sr (start', end') (Fin d)
     = extract_noise_clip audio sr (start_time, end_time) (Fin d).
Proof.
  intros start' end'.
  assert (H1 : clamp_start start' (Fin d) = start').
  { subst start'. unfold clamp_start, py_max, py_min.
    destruct start_time as [s| | |]; simpl;
      repeat (destruct (Qlt_le_dec _ _); simpl); try reflexivity; lra. }
  assert (H2 : clamp_end start' end' (Fin d) = end').
  { subst end'. destruct (clamp_start_finite start_time d) as (s' & Hs' & _).
    fold start' in Hs'. rewrite Hs'. unfold clamp_end, py_max, py_min.
    destruct end_time as [e| | |]; simpl;
      repeat (destruct (Qlt_le_dec _ _); simpl); try reflexivity; lra. }
  split; [done|]. split; [done|].
  unfold extract_noise_clip. fold start'. rewrite H1. fold end'. by rewrite H2.
Qed.

(** X8. By default, and for every position that reads "start" in any
    letter case, the noise clip of a track of at least one second is its
    first second: the first [sr] samples. *)
Theorem noise_clip_start {A : Type} (audio : list A) (sr : Z)
    (noise_position : string) (d : Q) :
  lower noise_position = "start" -> (0 < sr)%Z -> 1 <= d ->
  inject_Z (Z.of_nat (List.length audio)) == d * inject_Z sr ->
  exists time_range,
    parse_time_range noise_position (Fin d) = Ok time_range
    /\ extract_noise_clip audio sr time_range (Fin d)
       = Ok (firstn (Z.to_nat sr) audio).
Proof.
  intros Hpos Hsr Hd Hlen. exists (Fin 0, Fin 1). split.
  { unfold parse_time_range, parse_time_range_body. by rewrite Hpos. }
  assert (Hq : 0 < inject_Z sr).
  { change 0 with (inject_Z 0). by rewrite <- Zlt_Qlt. }
  assert (Hs : clamp_start (Fin 0) (Fin d) = Fin 0).
  { unfold clamp_start, py_max, py_min. simpl.
    repeat (destruct (Qlt_le_dec _ _); simpl); try reflexivity; lra. }
  assert (He : clamp_end (Fin 0) (Fin 1) (Fin d) = Fin 1).
  { unfold clamp_end, py_max, py_min. simpl.
    repeat (destruct (Qlt_le_dec _ _); simpl); try reflexivity; lra. }
  unfold extract_noise_clip. rewrite Hs, He. cbn [pf_mul pf_of_int].
  rewrite (py_int_floor (0 * inject_Z sr)) by (clear -Hq; nra).
  rewrite (py_int_floor (1 * inject_Z sr)) by (clear -Hq; nra).
  cbn [rbind]. f_equal.
  assert (Ha : Qfloor (0 * inject_Z sr) = 0%Z).
  { rewrite <- (Qfloor_Z 0) at 2. apply Qfloor_comp.
    change (inject_Z 0) with 0. clear. lra. }
  assert (Hb : Qfloor (1 * inject_Z sr) = sr).
  { rewrite <- (Qfloor_Z sr) at 2. apply Qfloor_comp. clear. lra. }
  rewrite Ha, Hb.
  assert (Hle : (sr <= Z.of_nat (List.length audio))%Z).
  { rewrite Zle_Qle. clear -Hq Hd Hlen. nra. }
  destruct (py_slice_in_range audio 0 sr) as [-> _]; [lia|done|].
  by rewrite Z.sub_0_r.
Qed.

Lemma noise_clip_start_witness :
  exists time_range,
    parse_time_range "Start" (Fin 2) = Ok time_range
    /\ extract_noise_clip [1; 2; 3; 4; 5; 6]%Z 3 time_range (Fin 2)
       = Ok [1; 2; 3]%Z.
Proof.
  apply (noise_clip_start [1; 2; 3; 4; 5; 6]%Z 3 "Start" 2);
    [reflexivity|reflexivity|discriminate|reflexivity].
Defined.


(** ** Profiles: what every bundle of parameters satisfies *)

(** X9. Whatever the profile name, the bundle handed to the denoiser has
    a window as long as the FFT, a hop of a quarter of it, an FFT size of
    512, 1024 or 2048, a reduction in (0, 1] and a threshold between 1.5
    and 2; it is non-stationary for "rain" and "wind" only. *)
Theorem resolve_profile_parameters (profile : string) :
  exists params,
    resolve_profile profile = Ok params
    /\ win_length params = n_fft params
    /\ (4 * hop_length params)%Z = n_fft params
    /\ In (n_fft params) [512; 1024; 2048]%Z
    /\ 0 < prop_decrease params <= 1
    /\ 1.5 <= n_std_thresh_stationary params <= 2
    /\ (stationary params = false <-> profile = "rain" \/ profile = "wind").
Proof.
  assert (Hin : In 1024%Z [512; 1024; 2048]%Z) by (right; by left).
  destruct (decide (profile = "footsteps")) as [->|H1].
  { exists footsteps_profile. repeat split; simpl; auto; try lra;
      try discriminate; intros [H|H]; discriminate. }
  destruct (decide (profile = "rain")) as [->|H2].
  { exists rain_profile. repeat split; simpl; auto; lra. }
  destruct (decide (profile = "wind")) as [->|H3].
  { exists wind_profile. repeat split; simpl; auto; lra. }
  destruct (decide (profile = "voice")) as [->|H4].
  { exists voice_profile. repeat split; simpl; auto; try lra;
      try discriminate; intros [H|H]; discriminate. }
  exists default_profile. split.
  { destruct (decide (profile = "default")) as [->|H5]; [reflexivity|].
    unfold resolve_profile, dict_get.
    by rewrite (PROFILE_SETTINGS_unknown _ H1 H2 H3 H4 H5). }
  repeat split; simpl; auto; try lra; try discriminate.
  intros [H|H]; congruence.
Qed.

(** ** The file system: what creating directories and writing a file change *)

Lemma file_at_nil fs : file_at [] fs = match fs with File c => Some c | Dir _ => None end.
Proof. reflexivity. Qed.

Lemma file_at_cons name q entries :
  file_at (name :: q) (Dir entries)
  = match entry name entries with
    | Some child => file_at q child
    | None => None
    end.
Proof. unfold file_at. simpl. by destruct (entry name entries). Qed.

Lemma file_at_below_file q c : q <> [] -> file_at q (File c) = None.
Proof. by destruct q. Qed.

Lemma file_at_empty_dir q : file_at q (Dir []) = None.
Proof. by destruct q. Qed.

Lemma isfile_file_at q fs : isfile q fs = true <-> exists c, file_at q fs = Some c.
Proof.
  unfold isfile, file_at. destruct (fs_lookup q fs) as [[c|entries]|].
  - split; eauto.
  - split; [done|]. by intros [c Hc].
  - split; [done|]. by intros [c Hc].
Qed.

Lemma mkdir_parents_file_at p fs fs1 q :
  mkdir_parents p fs = Ok fs1 -> file_at q fs1 = file_at q fs.
Proof.
  revert q fs fs1.
  induction p as [|name rest IH]; intros q [c|entries] fs1; simpl; try done.
  - by intros [= <-].
  - destruct (mkdir_parents rest _) as [child'|e'] eqn:Hrec; simpl; [|done].
    intros [= <-]. destruct q as [|n q]; [done|]. rewrite !file_at_cons.
    destruct (decide (n = name)) as [->|Hne].
    + rewrite entry_set_entry, (IH _ _ _ Hrec).
      destruct (entry name entries) as [child|]; [done|]. simpl.
      apply file_at_empty_dir.
    + by rewrite entry_set_entry_ne.
Qed.

Lemma mkdir_parents_keeps_dirs p fs fs1 q :
  mkdir_parents p fs = Ok fs1 -> isdir q fs = true -> isdir q fs1 = true.
Proof.
  unfold isdir. revert q fs fs1.
  induction p as [|name rest IH]; intros q [c|entries] fs1; simpl; try done.
  - by intros [= <-].
  - destruct (mkdir_parents rest _) as [child'|e'] eqn:Hrec; simpl; [|done].
    intros [= <-]. destruct q as [|n q]; [done|]. simpl.
    destruct (decide (n = name)) as [->|Hne].
    + rewrite entry_set_entry.
      destruct (entry name entries) as [child|]; [|done]. simpl in Hrec.
      by apply IH.
    + by rewrite entry_set_entry_ne.
Qed.

Lemma write_file_file_at p c fs fs' q :
  write_file p c fs = Ok fs' ->
  file_at q fs' = if decide (q = p) then Some c else file_at q fs.
Proof.
  revert q fs fs'.
  induction p as [|name rest IH]; intros q [c'|entries] fs'; simpl; try done.
  destruct rest as [|name' rest].
  - destruct (entry name entries) as [[c'|sub]|] eqn:He; try done;
      intros [= <-]; (destruct q as [|n q]; [by rewrite decide_False|]);
      rewrite !file_at_cons;
      (destruct (decide (n = name)) as [->|Hne];
       [rewrite entry_set_entry, He
       |rewrite entry_set_entry_ne by done;
        rewrite decide_False by congruence; reflexivity]);
      (destruct q as [|m q];
       [by rewrite decide_True|by rewrite decide_False]).
  - destruct (entry name entries) as [child|] eqn:He; [|done].
    destruct (write_file (name' :: rest) c child) as [child'|e'] eqn:Hrec;
      cbn [rbind]; [|done].
    intros [= <-]. destruct q as [|n q]; [by rewrite decide_False|].
    rewrite !file_at_cons. destruct (decide (n = name)) as [->|Hne].
    + rewrite entry_set_entry, He, (IH _ _ _ Hrec).
      destruct (decide (q = name' :: rest)) as [->|Hq].
      * by rewrite !decide_True.
      * rewrite !decide_False; [done|congruence|done].
    + rewrite entry_set_entry_ne by done.
      rewrite decide_False by congruence. reflexivity.
Qed.

Lemma write_file_keeps_dirs p c fs fs' q :
  write_file p c fs = Ok fs' -> isdir q fs = true -> isdir q fs' = true.
Proof.
  unfold isdir. revert q fs fs'.
  induction p as [|name rest IH]; intros q [c'|entries] fs'; simpl; try done.
  destruct rest as [|name' rest].
  - destruct (entry name entries) as [[c'|sub]|] eqn:He; try done;
      intros [= <-]; (destruct q as [|n q]; [done|]); simpl;
      (destruct (decide (n = name)) as [->|Hne];
       [rewrite entry_set_entry, He; by destruct q
       |by rewrite entry_set_entry_ne]).
  - destruct (entry name entries) as [child|] eqn:He; [|done].
    destruct (write_file (name' :: rest) c child) as [child'|e'] eqn:Hrec;
      simpl; [|done].
    intros [= <-]. destruct q as [|n q]; [done|]. simpl.
    destruct (decide (n = name)) as [->|Hne].
    + rewrite entry_set_entry, He. by apply IH.
    + by rewrite entry_set_entry_ne.
Qed.



Lemma write_file_keeps_paths p c fs fs' :
  write_file p c fs = Ok fs' -> keeps_paths fs fs'.
Proof.
  intros Hw q. split; [by eapply write_file_keeps_dirs|].
  rewrite !isfile_file_at, (write_file_file_at _ _ _ _ q Hw).
  destruct (decide (q = p)); eauto.
Qed.

Lemma mkdir_parents_keeps_paths p fs fs1 :
  mkdir_parents p fs = Ok fs1 -> keeps_paths fs fs1.
Proof.
  intros Hmk q. split; [by eapply mkdir_parents_keeps_dirs|].
  by rewrite !isfile_file_at, (mkdir_parents_file_at _ _ _ q Hmk).
Qed.

Lemma keeps_paths_refl fs : keeps_paths fs fs.
Proof. by intros q. Qed.

Lemma keeps_paths_trans fs1 fs2 fs3 :
  keeps_paths fs1 fs2 -> keeps_paths fs2 fs3 -> keeps_paths fs1 fs3.
Proof.
  intros H12 H23 q. destruct (H12 q), (H23 q). split; auto.
Qed.

Lemma relative_to_app base rel : relative_to (base ++ rel)%list base = Ok rel.
Proof.
  induction base as [|b base IH]; simpl; [by destruct rel|].
  by rewrite String.eqb_refl.
Qed.

Lemma prefix_app_cons (base rel : path) q :
  ~ base `prefix_of` q -> q <> (base ++ rel)%list.
Proof. intros Hpre ->. apply Hpre. by apply prefix_app_r. Qed.


(** ** process_file: what a call does *)

Section Effects.

Variable reduce_noise : list Q -> list Q -> Z -> NoiseProfile -> result (list Q).
Variable sf_can_write : string -> bool.

Lemma process_file_body_inv input_path output_path profile noise_position
    noise_duration fs fs' :
  process_file_body reduce_noise sf_can_write input_path output_path profile
    noise_position noise_duration fs = Ok fs' ->
  exists audio sr total_duration time_range noise_clip params cleaned_audio,
    sf_read input_path fs = Ok (audio, sr)
    /\ int_truediv (Z.of_nat (array_len audio)) sr = Ok total_duration
    /\ parse_time_range noise_position total_duration = Ok time_range
    /\ extract_noise_clip (to_mono audio) sr time_range total_duration
       = Ok noise_clip
    /\ resolve_profile profile = Ok params
    /\ reduce_noise (to_mono audio) noise_clip sr params = Ok cleaned_audio
    /\ sf_can_write (name output_path) = true
    /\ write_file output_path (Audio (Mono cleaned_audio) sr) fs = Ok fs'.
Proof.
  unfold process_file_body.
  destruct (sf_read input_path fs) as [[audio sr]|e] eqn:Hread; [|done].
  cbn [rbind].
  destruct (int_truediv _ sr) as [total_duration|e] eqn:Hdur; [|done].
  cbn [rbind].
  destruct (parse_time_range _ _) as [time_range|e] eqn:Hparse; [|done].
  cbn [rbind].
  destruct (extract_noise_clip _ _ _ _) as [noise_clip|e] eqn:Hclip; [|done].
  cbn [rbind].
  destruct (resolve_profile profile) as [params|e] eqn:Hparams; [|done].
  cbn [rbind].
  destruct (reduce_noise _ _ _ _) as [cleaned_audio|e] eqn:Hnr; [|done].
  cbn [rbind]. unfold sf_write.
  destruct (sf_can_write _) eqn:Hfmt; [|done]. intros Hw.
  exists audio, sr, total_duration, time_range, noise_clip, params,
    cleaned_audio. done.
Qed.

Lemma process_file_inv input_path output_path profile noise_position
    noise_duration fs r :
  process_file reduce_noise sf_can_write input_path output_path profile
    noise_position noise_duration fs = r ->
  (exists fs', r = Ok (true, fs')
     /\ process_file_body reduce_noise sf_can_write input_path output_path
          profile noise_position noise_duration fs = Ok fs')
  \/ r = Ok (false, fs)
  \/ (exists e, r = Raise e /\ is_Exception e = false).
Proof.
  unfold process_file.
  destruct (process_file_body _ _ _ _ _ _ _ fs) as [fs'|e]; simpl.
  - intros <-. left. eauto.
  - destruct (is_Exception e) eqn:He; intros <-; [by right; left|].
    right; right. eauto.
Qed.




Lemma process_file_file_at input_path output_path profile noise_position
    noise_duration fs success fs' q :
  process_file reduce_noise sf_can_write input_path output_path profile
    noise_position noise_duration fs = Ok (success, fs') ->
  q <> output_path -> file_at q fs' = file_at q fs.
Proof.
  intros H Hq.
  apply process_file_inv in H as [(fs2 & [= -> ->] & Hbody)|[H|H]].
  - apply process_file_body_inv in Hbody
      as (audio & sr & d & time_range & noise_clip & params & cleaned & _ & _
          & _ & _ & _ & _ & _ & Hw).
    rewrite (write_file_file_at _ _ _ _ q Hw). by rewrite decide_False.
  - by injection H as -> ->.
  - by destruct H as (e & [=] & _).
Qed.

Lemma process_file_keeps_paths input_path output_path profile noise_position
    noise_duration fs success fs' :
  process_file reduce_noise sf_can_write input_path output_path profile
    noise_position noise_duration fs = Ok (success, fs') ->
  keeps_paths fs fs'.
Proof.
  intros H.
  apply process_file_inv in H as [(fs2 & [= -> ->] & Hbody)|[H|H]].
  - apply process_file_body_inv in Hbody
      as (audio & sr & d & time_range & noise_clip & params & cleaned & _ & _
          & _ & _ & _ & _ & _ & Hw).
    by eapply write_file_keeps_paths.
  - injection H as -> ->. apply keeps_paths_refl.
  - by destruct H as (e & [=] & _).
Qed.


(** ** main: what a run leaves behind *)

Lemma process_all_file_at args input_dir files n fs q :
  ~ output args `prefix_of` q ->
  file_at q (snd (process_all reduce_noise sf_can_write args input_dir files
                    n fs))
  = file_at q fs.
Proof.
  intros Hq. revert n fs. induction files as [|file files IH]; intros n fs;
    [done|].
  cbn [process_all].
  destruct (relative_to file input_dir) as [rel|e]; [|done].
  destruct (mkdir_parents _ fs) as [fs1|e] eqn:Hmk; [|done].
  destruct (process_file _ _ _ _ _ _ _ fs1) as [[success fs2]|e] eqn:Hpf.
  - rewrite IH. rewrite (process_file_file_at _ _ _ _ _ _ _ _ q Hpf).
    + by eapply mkdir_parents_file_at.
    + by apply prefix_app_cons.
  - by eapply mkdir_parents_file_at.
Qed.

Lemma process_all_keeps_paths args input_dir files n fs :
  keeps_paths fs
    (snd (process_all reduce_noise sf_can_write args input_dir files n fs)).
Proof.
  revert n fs. induction files as [|file files IH]; intros n fs;
    [apply keeps_paths_refl|].
  cbn [process_all].
  destruct (relative_to file input_dir) as [rel|e]; [|apply keeps_paths_refl].
  destruct (mkdir_parents _ fs) as [fs1|e] eqn:Hmk; [|apply keeps_paths_refl].
  pose proof (mkdir_parents_keeps_paths _ _ _ Hmk) as H1.
  destruct (process_file _ _ _ _ _ _ _ fs1) as [[success fs2]|e] eqn:Hpf;
    [|done].
  eapply keeps_paths_trans; [exact H1|].
  eapply keeps_paths_trans; [by eapply process_file_keeps_paths|apply IH].
Qed.

Lemma main_steps args fs :
  (exists e, mkdir_parents (output args) fs = Raise e
             /\ main reduce_noise sf_can_write args fs = (Raise e, fs))
  \/ exists fs1,
       mkdir_parents (output args) fs = Ok fs1
       /\ ((input args = None
            /\ main reduce_noise sf_can_write args fs = (Raise TypeError, fs1))
           \/ exists input_path,
                input args = Some input_path
                /\ ((isfile input_path fs1 = true
                     /\ main reduce_noise sf_can_write args fs
                        = match process_file reduce_noise sf_can_write
                                  input_path
                                  (output args
                                   ++ [output_filename args input_path])%list
                                  (profile args) (noise_position args)
                                  (noise_duration args) fs1 with
                          | Raise e => (Raise e, fs1)
                          | Ok (success, fs2) => (Ok (SingleFile success), fs2)
                          end)
                    \/ (isfile input_path fs1 = false
                        /\ isdir input_path fs1 = false
                        /\ main reduce_noise sf_can_write args fs
                           = (Raise (SystemExit 1), fs1))
                    \/ (isfile input_path fs1 = false
                        /\ isdir input_path fs1 = true
                        /\ collect_audio_files input_path (recursive args) fs1
                           = []
                        /\ main reduce_noise sf_can_write args fs
                           = (Ok NoAudioFiles, fs1))
                    \/ (isfile input_path fs1 = false
                        /\ isdir input_path fs1 = true
                        /\ collect_audio_files input_path (recursive args) fs1
                           <> []
                        /\ main reduce_noise sf_can_write args fs
                           = let files :=
                               collect_audio_files input_path (recursive args)
                                 fs1 in
                             match process_all reduce_noise sf_can_write args
                                     input_path files 0 fs1 with
                             | (Raise e, fs2) => (Raise e, fs2)
                             | (Ok success_count, fs2) =>
                                 (Ok (Batch success_count (List.length files)),
                                  fs2)
                             end))).
Proof.
  unfold main.
  destruct (mkdir_parents (output args) fs) as [fs1|e]; [right|left; eauto].
  exists fs1. split; [done|].
  destruct (input args) as [input_path|]; [right|by left].
  exists input_path. split; [done|].
  destruct (isfile input_path fs1); [by left|right].
  destruct (isdir input_path fs1); [right|by left].
  destruct (collect_audio_files _ _ _) as [|file files] eqn:Hfiles;
    [by left|right]. done.
Qed.

(** X12. A run writes below the output directory only: every file that is
    not below it, the inputs included, has the content it had. *)
Theorem main_writes_below_output_only args fs q :
  ~ output args `prefix_of` q ->
  file_at q (snd (main reduce_noise sf_can_write args fs)) = file_at q fs.
Proof.
  intros Hq.
  destruct (main_steps args fs) as [(e & Hmk & ->)|(fs1 & Hmk & H)]; [done|].
  pose proof (mkdir_parents_file_at _ _ _ q Hmk) as H1.
  destruct H as [[_ ->]|(input_path & _ & [[_ ->]|[(_ & _ & ->)|[(_ & _ & _ & ->)
                |(_ & _ & _ & ->)]]])]; try done.
  - destruct (process_file _ _ _ _ _ _ _ fs1) as [[success fs2]|e] eqn:Hpf;
      [|done].
    cbn [snd]. rewrite (process_file_file_at _ _ _ _ _ _ _ _ q Hpf); [done|].
    by apply prefix_app_cons.
  - cbv zeta.
    pose proof (process_all_file_at args input_path
                  (collect_audio_files input_path (recursive args) fs1) 0 fs1
                  q Hq) as H2.
    destruct (process_all _ _ _ _ _ _ _) as [[n|e] fs2]; simpl in *; congruence.
Qed.

(** X13. A run removes nothing: every directory is still a directory
    afterwards and every file still a file; and once the output directory
    could be created it exists at the end of the run, however the run
    ends. *)
Theorem main_removes_nothing args fs :
  keeps_paths fs (snd (main reduce_noise sf_can_write args fs))
  /\ (forall fs1, mkdir_parents (output args) fs = Ok fs1 ->
        isdir (output args) (snd (main reduce_noise sf_can_write args fs))
        = true).
Proof.
  assert (H : forall fs1, mkdir_parents (output args) fs = Ok fs1 ->
              keeps_paths fs1 (snd (main reduce_noise sf_can_write args fs))).
  { intros fs1 Hmk.
    destruct (main_steps args fs) as [(e & Hmk' & _)|(fs1' & Hmk' & H)];
      [congruence|].
    assert (fs1' = fs1) as -> by congruence.
    destruct H as [[_ ->]|(input_path & _ & [[_ ->]|[(_ & _ & ->)
                  |[(_ & _ & _ & ->)|(_ & _ & _ & ->)]]])];
      try apply keeps_paths_refl.
    - destruct (process_file _ _ _ _ _ _ _ fs1) as [[success fs2]|e] eqn:Hpf;
        [|apply keeps_paths_refl].
      by eapply process_file_keeps_paths.
    - cbv zeta.
      pose proof (process_all_keeps_paths args input_path
                    (collect_audio_files input_path (recursive args) fs1) 0
                    fs1) as H2.
      by destruct (process_all _ _ _ _ _ _ _) as [[n|e] fs2]. }
  split.
  - destruct (mkdir_parents (output args) fs) as [fs1|e] eqn:Hmk.
    + eapply keeps_paths_trans; [by eapply mkdir_parents_keeps_paths|by apply H].
    + destruct (main_steps args fs) as [(e' & _ & ->)|(fs1 & Hmk' & _)];
        [apply keeps_paths_refl|congruence].
  - intros fs1 Hmk. apply (H fs1 Hmk). by eapply mkdir_parents_isdir.
Qed.

End Effects.



Lemma main_writes_below_output_only_witness :
  file_at ["rec.wav"]
    (snd (main identity_denoiser any_format test_noise_args recording_tree))
  = file_at ["rec.wav"] recording_tree.
Proof.
  apply (main_writes_below_output_only identity_denoiser any_format
           test_noise_args recording_tree ["rec.wav"]).
  intros [k Hk]. discriminate.
Defined.

(** ** main: how a run ends *)

Lemma collect_audio_files_below input_dir recursive fs p :
  In p (collect_audio_files input_dir recursive fs) ->
  exists rel name, p = (input_dir ++ rel ++ [name])%list.
Proof.
  intros H. apply In_collect_audio_files in H
    as (root & rel & name & n & sfx & _ & -> & _). eauto.
Qed.

Section Outcomes.

Variable reduce_noise : list Q -> list Q -> Z -> NoiseProfile -> result (list Q).
Variable sf_can_write : string -> bool.

Hypothesis reduce_noise_Exception :
  forall y y_noise sr params e,
    reduce_noise y y_noise sr params = Raise e -> is_Exception e = true.




End Outcomes.

Section Tally.

Variable reduce_noise : list Q -> list Q -> Z -> NoiseProfile -> result (list Q).
Variable sf_can_write : string -> bool.

Lemma process_all_count args input_dir files c fs n :
  fst (process_all reduce_noise sf_can_write args input_dir files c fs) = Ok n ->
  (c <= n <= c + List.length files)%nat.
Proof.
  revert c fs. induction files as [|file files IH]; intros c fs.
  { simpl. intros [= <-]. lia. }
  cbn [process_all].
  destruct (relative_to file input_dir) as [rel|e]; [|done].
  destruct (mkdir_parents _ fs) as [fs1|e]; [|done].
  destruct (process_file _ _ _ _ _ _ _ fs1) as [[[] fs2]|e]; [| |done];
    intros H; apply IH in H; simpl; lia.
Qed.

(** X16. The tally of a run on a directory: the number of successes it
    reports is at most the number of files it found, and it reports a tally
    only when it found at least one file. *)
Theorem main_tally args fs success_count total fs' :
  main reduce_noise sf_can_write args fs
  = (Ok (Batch success_count total), fs') ->
  (success_count <= total)%nat /\ (0 < total)%nat.
Proof.
  destruct (main_steps reduce_noise sf_can_write args fs)
    as [(e' & Hmk & ->)|(fs1 & Hmk & H)]; [done|].
  destruct H as [[Hin ->]|(input_path & Hin & [[_ ->]|[(Hf & _ & ->)
                |[(_ & _ & _ & ->)|(_ & _ & Hfiles & ->)]]])]; try done.
  - by destruct (process_file _ _ _ _ _ _ _ fs1) as [[success fs2]|e].
  - cbv zeta.
    pose proof (process_all_count args input_path
                  (collect_audio_files input_path (recursive args) fs1) 0
                  fs1) as Hcount.
    destruct (process_all _ _ _ _ _ _ _) as [[n|e'] fs2]; [|done].
    intros [= <- <- <-]. specialize (Hcount n eq_refl).
    destruct (collect_audio_files _ _ _); [done|]. simpl in *. lia.
Qed.

End Tally.


Lemma main_tally_witness : (2 <= 5)%nat /\ (0 < 5)%nat.
Proof.
  apply (main_tally identity_denoiser any_format sample_args sample_tree 2 5
           (snd (main identity_denoiser any_format sample_args sample_tree))).
  vm_compute. reflexivity.
Defined.


(** ** The output paths and the collection *)

Lemma append_inj_l (pre a b : string) : pre ++ a = pre ++ b -> a = b.
Proof.
  induction pre as [|c pre IH]; [done|].
  rewrite !append_cons. intros [= H]. by apply IH.
Qed.

Lemma name_app (base rel : path) : rel <> [] -> name (base ++ rel)%list = name rel.
Proof.
  intros H. unfold name. induction base as [|b base IH]; [done|].
  rewrite <- IH. cbn [app List.last].
  destruct (base ++ rel)%list eqn:E; [|done].
  by apply app_eq_nil in E as [_ ->].
Qed.

(** X17. In a run on a directory two files never share an output path:
    the paths computed at line 243 for two different files below the input
    directory are different, also when the two files have the same name in
    different directories. *)
Theorem output_paths_distinct (args : Args) (input_dir rel1 rel2 : path) :
  rel1 <> [] -> rel2 <> [] -> rel1 <> rel2 ->
  (output args ++ parent rel1
   ++ [output_filename args (input_dir ++ rel1)%list])%list
  <> (output args ++ parent rel2
      ++ [output_filename args (input_dir ++ rel2)%list])%list.
Proof.
  intros H1 H2 Hne Heq. apply Hne. apply app_inv_head in Heq.
  apply app_inj_tail in Heq as [Hparent Hname].
  unfold output_filename in Hname. rewrite !name_app in Hname by done.
  assert (Hlast : name rel1 = name rel2).
  { destruct (test_noise args); by eapply append_inj_l. }
  rewrite (app_removelast_last "" H1), (app_removelast_last "" H2).
  unfold parent, name in *. by rewrite Hparent, Hlast.
Qed.

Lemma output_paths_distinct_witness :
  ["cleaned_audio"; "cleaned_a.wav"] <> ["cleaned_audio"; "sub"; "cleaned_a.wav"].
Proof.
  apply (output_paths_distinct missing_input_args ["in"] ["a.wav"]
           ["sub"; "a.wav"]); discriminate.
Defined.

(** X18. Every path the collection holds lies below the input directory,
    so that [relative_to] in the loop of [main] never raises; and what is
    collected without the recursive flag is collected with it. *)
Theorem collect_audio_files_below_input (input_dir : path) (fs : node) :
  (forall recursive p,
      In p (collect_audio_files input_dir recursive fs) ->
      exists rel, rel <> [] /\ p = (input_dir ++ rel)%list
                  /\ relative_to p input_dir = Ok rel)
  /\ (forall p,
        In p (collect_audio_files input_dir false fs) ->
        In p (collect_audio_files input_dir true fs)).
Proof.
  split.
  - intros recursive p H.
    apply collect_audio_files_below in H as (rel & name & ->).
    exists (rel ++ [name])%list. split; [by destruct rel|].
    split; [done|]. apply relative_to_app.
  - intros p H. apply In_collect_audio_files in H
      as (root & rel & name & n & sfx & Hroot & -> & Hr & Hrec & Hsfx & Hends).
    apply In_collect_audio_files. exists root, rel, name, n, sfx.
    repeat split; try done.
Qed.

(** ** main: the files a run has written *)

Section Written.

Variable reduce_noise : list Q -> list Q -> Z -> NoiseProfile -> result (list Q).
Variable sf_can_write : string -> bool.

Lemma process_file_writes input_path output_path profile noise_position
    noise_duration fs fs' :
  process_file reduce_noise sf_can_write input_path output_path profile
    noise_position noise_duration fs = Ok (true, fs') ->
  isfile output_path fs' = true.
Proof.
  intros H. apply process_file_inv in H as [(fs2 & [= ->] & Hbody)|[[=]|H]].
  - apply process_file_body_inv in Hbody
      as (audio & sr & d & time_range & noise_clip & params & cleaned & _ & _
          & _ & _ & _ & _ & _ & Hw).
    apply isfile_file_at. rewrite (write_file_file_at _ _ _ _ _ Hw).
    rewrite decide_True by done. eauto.
  - by destruct H as (e & [=] & _).
Qed.

Lemma process_all_all_written args input_dir files c fs :
  fst (process_all reduce_noise sf_can_write args input_dir files c fs)
  = Ok (c + List.length files)%nat ->
  forall rel,
    In (input_dir ++ rel)%list files ->
    isfile (output args ++ parent rel
            ++ [output_filename args (input_dir ++ rel)%list])%list
      (snd (process_all reduce_noise sf_can_write args input_dir files c fs))
    = true.
Proof.
  revert c fs. induction files as [|file files IH]; intros c fs Hn rel Hin;
    [done|].
  revert Hn. cbn [process_all].
  destruct (relative_to file input_dir) as [rel'|e] eqn:Hrel; [|done].
  destruct (mkdir_parents _ fs) as [fs1|e] eqn:Hmk; [|done].
  destruct (process_file _ _ _ _ _ _ _ fs1) as [[success fs2]|e] eqn:Hpf;
    [|done].
  intros Hn. destruct success.
  - destruct Hin as [->|Hin].
    + rewrite relative_to_app in Hrel. injection Hrel as <-.
      apply (process_all_keeps_paths reduce_noise sf_can_write args input_dir
               files (S c) fs2).
      by eapply process_file_writes.
    + apply IH; [|done]. rewrite Hn. f_equal. simpl. lia.
  - apply process_all_count in Hn. simpl in Hn. lia.
Qed.

(** X19. When the tally of a run on a directory says that every file it
    found was processed, each of them has its counterpart under the output
    directory at the end of the run: a file of the prefixed name, in the
    directory of the same relative path. *)
Theorem main_mirrors_the_input args fs fs1 input_dir total fs' :
  input args = Some input_dir ->
  mkdir_parents (output args) fs = Ok fs1 ->
  main reduce_noise sf_can_write args fs = (Ok (Batch total total), fs') ->
  forall rel,
    In (input_dir ++ rel)%list
       (collect_audio_files input_dir (recursive args) fs1) ->
    isfile (output args ++ parent rel
            ++ [output_filename args (input_dir ++ rel)%list])%list fs'
    = true.
Proof.
  intros Hin Hmk.
  destruct (main_steps reduce_noise sf_can_write args fs)
    as [(e' & Hmk' & _)|(fs1' & Hmk' & H)]; [congruence|].
  assert (fs1' = fs1) as -> by congruence.
  destruct H as [[Hin' _]|(input_path & Hin' & H)]; [congruence|].
  assert (input_path = input_dir) as -> by congruence.
  destruct H as [[_ ->]|[(_ & _ & ->)|[(_ & _ & _ & ->)|(_ & _ & _ & ->)]]];
    try done.
  - by destruct (process_file _ _ _ _ _ _ _ fs1) as [[success fs2]|e].
  - cbv zeta.
    pose proof (process_all_all_written args input_dir
                  (collect_audio_files input_dir (recursive args) fs1) 0 fs1)
      as Hall.
    destruct (process_all _ _ _ _ _ _ _) as [[n|e'] fs2]; [|done].
    intros [= -> <- <-] rel Hrel. by apply Hall.
Qed.

(** X20. The flag [--test-noise] changes the name of the output file and
    nothing else: when the run on a file succeeds with the flag and
    without it, the file named noise_sample_ holds what the file named
    cleaned_ holds. *)
Theorem test_noise_changes_the_name_only args fs input_path fs_noise
    fs_cleaned :
  input args = Some input_path ->
  main reduce_noise sf_can_write (with_test_noise true args) fs
  = (Ok (SingleFile true), fs_noise) ->
  main reduce_noise sf_can_write (with_test_noise false args) fs
  = (Ok (SingleFile true), fs_cleaned) ->
  exists cleaned_audio sr,
    sf_read (output args ++ [("noise_sample_" ++ name input_path)%string])%list
      fs_noise
    = Ok (Mono cleaned_audio, sr)
    /\ sf_read (output args ++ [("cleaned_" ++ name input_path)%string])%list
         fs_cleaned
       = Ok (Mono cleaned_audio, sr).
Proof.
  intros Hin. unfold main.
  cbn [with_test_noise input output profile noise_position noise_duration
       recursive].
  rewrite Hin.
  destruct (mkdir_parents (output args) fs) as [fs1|e]; [|done].
  destruct (isfile input_path fs1).
  - unfold output_filename. cbn [with_test_noise test_noise].
    destruct (process_file _ _ _ (output args ++ [("noise_sample_" ++ _)%string])%list
                _ _ _ fs1) as [[s1 fs2]|e] eqn:H1; [|done].
    destruct (process_file _ _ _ (output args ++ [("cleaned_" ++ _)%string])%list
                _ _ _ fs1) as [[s2 fs3]|e] eqn:H2; [|done].
    intros [= -> ->] [= -> ->].
    apply process_file_inv in H1 as [(fs' & [= <-] & Hb1)|[[=]|(e & [=] & _)]].
    apply process_file_inv in H2 as [(fs' & [= <-] & Hb2)|[[=]|(e & [=] & _)]].
    apply process_file_body_inv in Hb1
      as (audio & sr & d & time_range & noise_clip & params & cleaned & Hread
          & Hdur & Hparse & Hclip & Hparams & Hnr & _ & Hw1).
    apply process_file_body_inv in Hb2
      as (audio' & sr' & d' & time_range' & noise_clip' & params' & cleaned'
          & Hread' & Hdur' & Hparse' & Hclip' & Hparams' & Hnr' & _ & Hw2).
    assert (audio' = audio /\ sr' = sr) as [-> ->] by (split; congruence).
    assert (d' = d) as -> by congruence.
    assert (time_range' = time_range) as -> by congruence.
    assert (noise_clip' = noise_clip) as -> by congruence.
    assert (params' = params) as -> by congruence.
    assert (cleaned' = cleaned) as -> by congruence.
    exists cleaned, sr.
    pose proof (write_file_file_at _ _ _ _
                  (output args ++ [("noise_sample_" ++ name input_path)%string])%list
                  Hw1) as Hf1.
    pose proof (write_file_file_at _ _ _ _
                  (output args ++ [("cleaned_" ++ name input_path)%string])%list
                  Hw2) as Hf2.
    rewrite decide_True in Hf1 by done. rewrite decide_True in Hf2 by done.
    unfold file_at in Hf1, Hf2. unfold sf_read.
    destruct (fs_lookup _ fs_noise) as [[[]|]|]; try done.
    destruct (fs_lookup _ fs_cleaned) as [[[]|]|]; try done.
    by injection Hf1 as -> ->; injection Hf2 as -> ->.
  - destruct (isdir input_path fs1); [|done].
    destruct (collect_audio_files _ _ _) as [|file files]; [done|].
    by destruct (process_all _ _ _ _ _ _ _) as [[n|e] fs2].
Qed.

End Written.

Lemma main_mirrors_the_input_witness :
  isfile ["clean"; "side"; "cleaned_two.OGG"]
    (snd (main identity_denoiser any_format album_args album_tree))
  = true.
Proof.
  apply (main_mirrors_the_input identity_denoiser any_format album_args
           album_tree
           (Dir [("album",
                  Dir [("one.wav", File (Audio (Mono (repeat 1%Q 20)) 10));
                       ("side",
                        Dir [("two.OGG",
                              File (Audio (Multi (repeat [1%Q; 3%Q] 30)) 10))])]);
                 ("clean", Dir [])])
           ["album"] 2
           (snd (main identity_denoiser any_format album_args album_tree))
           eq_refl eq_refl eq_refl ["side"; "two.OGG"]).
  vm_compute. auto.
Defined.

Lemma test_noise_changes_the_name_only_witness :
  exists cleaned_audio sr,
    sf_read ["out"; "noise_sample_rec.wav"]
      (snd (main identity_denoiser any_format
              (with_test_noise true test_noise_args) recording_tree))
    = Ok (Mono cleaned_audio, sr)
    /\ sf_read ["out"; "cleaned_rec.wav"]
         (snd (main identity_denoiser any_format
                 (with_test_noise false test_noise_args) recording_tree))
       = Ok (Mono cleaned_audio, sr).
Proof.
  apply (test_noise_changes_the_name_only identity_denoiser any_format
           test_noise_args recording_tree ["rec.wav"]); reflexivity.
Defined.

(** ** The collection on a tree without duplicate names *)

Lemma distinct_cons x l :
  distinct (x :: l) = true <-> ~ In x l /\ distinct l = true.
Proof.
  simpl. rewrite andb_true_iff, negb_true_iff. split.
  - intros [Hx Hl]. split; [|done]. intros Hin.
    assert (existsb (String.eqb x) l = true); [|congruence].
    apply existsb_exists. exists x. by rewrite String.eqb_refl.
  - intros [Hx Hl]. split; [|done].
    destruct (existsb (String.eqb x) l) eqn:He; [|done].
    apply existsb_exists in He as (y & Hy & Hxy).
    apply String.eqb_eq in Hxy. by subst y.
Qed.

Lemma distinct_NoDup l : distinct l = true -> NoDup l.
Proof.
  induction l as [|x l IH]; [constructor|].
  rewrite distinct_cons. intros [Hx Hl]. constructor; [|by apply IH].
  by rewrite list_elem_of_In.
Qed.

Lemma unique_names_Dir entries :
  unique_names (Dir entries) = true <->
  distinct (map fst entries) = true
  /\ forall e, In e entries -> unique_names (snd e) = true.
Proof.
  cbn [unique_names]. rewrite andb_true_iff.
  assert (H : forall es,
             (fix below (es : list (string * node)) : bool :=
                match es with
                | [] => true
                | e :: es' => unique_names (snd e) && below es'
                end) es = true
             <-> forall e, In e es -> unique_names (snd e) = true).
  { induction es as [|e es IH]; [by split|].
    rewrite andb_true_iff, IH. split.
    - intros [He Hes] e' [<-|Hin]; auto.
    - intros Hall. split; [apply Hall; by left|].
      intros e' Hin. apply Hall. by right. }
  by rewrite H.
Qed.

Lemma entry_In_distinct name n entries :
  distinct (map fst entries) = true -> In (name, n) entries ->
  entry name entries = Some n.
Proof.
  induction entries as [|[k m] entries IH]; [done|].
  cbn [map fst]. rewrite distinct_cons. intros [Hk Hd] [[= -> ->]|Hin]; simpl.
  - by rewrite String.eqb_refl.
  - destruct (k =? name)%string eqn:Hkn; [|by apply IH].
    apply String.eqb_eq in Hkn. subst k. destruct Hk.
    apply in_map_iff. by exists (name, n).
Qed.

Lemma reaches_fs_lookup root rel n :
  unique_names root = true -> reaches root rel n ->
  fs_lookup rel root = Some n /\ unique_names n = true.
Proof.
  intros Hu Hr. induction Hr as [n|entries name child rel n Hin Hr IH];
    [done|].
  apply unique_names_Dir in Hu as [Hd Hall]. cbn [fs_lookup].
  rewrite (entry_In_distinct _ _ _ Hd Hin). apply IH.
  apply (Hall (name, child) Hin).
Qed.

Lemma fs_lookup_unique_names p fs n :
  unique_names fs = true -> fs_lookup p fs = Some n -> unique_names n = true.
Proof.
  intros Hu Hp. apply fs_lookup_reaches in Hp.
  by destruct (reaches_fs_lookup _ _ _ Hu Hp).
Qed.

Lemma NoDup_app_In {A : Type} (l k : list A) :
  NoDup l -> NoDup k -> (forall x, In x l -> In x k -> False) ->
  NoDup (l ++ k).
Proof.
  intros Hl Hk Hlk. apply NoDup_app. split; [done|]. split; [|done].
  intros x Hx Hx'. apply (Hlk x); by apply list_elem_of_In.
Qed.

Lemma NoDup_flat_map {A B : Type} (f : A -> list B) (l : list A) :
  NoDup l -> (forall x, In x l -> NoDup (f x)) ->
  (forall x y z, In x l -> In y l -> In z (f x) -> In z (f y) -> x = y) ->
  NoDup (flat_map f l).
Proof.
  induction l as [|a l IH]; intros Hl Hf Hdisj; [constructor|].
  apply NoDup_cons in Hl as [Ha Hl]. rewrite list_elem_of_In in Ha.
  cbn [flat_map]. apply NoDup_app_In.
  - apply Hf. by left.
  - apply IH; [done| |].
    + intros x Hx. apply Hf. by right.
    + intros x y z Hx Hy. apply Hdisj; by right.
  - intros z Hz Hz'. apply in_flat_map in Hz' as (x & Hx & Hzx).
    apply Ha. rewrite (Hdisj a x z); [done|by left|by right|done|done].
Qed.

Lemma map_flat_map {A B C : Type} (g : B -> C) (f : A -> list B) (l : list A) :
  map g (flat_map f l) = flat_map (fun x => map g (f x)) l.
Proof.
  induction l as [|a l IH]; [done|]. cbn [flat_map].
  by rewrite map_app, IH.
Qed.

Lemma flat_map_flat_map {A B C : Type} (g : B -> list C) (f : A -> list B)
    (l : list A) :
  flat_map g (flat_map f l) = flat_map (fun x => flat_map g (f x)) l.
Proof.
  induction l as [|a l IH]; [done|]. cbn [flat_map].
  by rewrite flat_map_app, IH.
Qed.

Lemma NoDup_matching_entries pat here entries :
  distinct (map fst entries) = true ->
  NoDup (map fst (matching_entries pat (here, Dir entries))).
Proof.
  intros Hd. unfold matching_entries. cbn [fst snd]. rewrite map_map.
  cbn [fst].
  induction entries as [|[k m] entries IH]; [constructor|].
  cbn [map fst] in Hd. apply distinct_cons in Hd as [Hk Hd].
  rewrite filter_cons. cbn [fst].
  destruct (decide (fnmatch pat k = true)); [|by apply IH].
  cbn [map fst]. constructor; [|by apply IH].
  rewrite list_elem_of_In, in_map_iff. intros ([k' m'] & Heq & Hin).
  cbn [fst] in Heq. apply app_inv_head in Heq. injection Heq as ->.
  apply list_elem_of_In, list_elem_of_filter in Hin as [_ Hin].
  apply Hk. apply in_map_iff. exists (k, m'). split; [done|].
  by apply list_elem_of_In.
Qed.

Lemma In_matching_descendants pat here root p :
  In p (map fst (flat_map (matching_entries pat) (walk_dirs here root))) ->
  exists rel name, p = (here ++ rel ++ [name])%list.
Proof.
  rewrite in_map_iff. intros ([p' n] & <- & Hin).
  apply in_flat_map in Hin as ([q m] & Hw & Hin).
  apply In_walk_dirs in Hw as (rel & entries & -> & _ & ->).
  apply In_matching_entries in Hin as (entries' & name & _ & _ & _ & ->).
  exists rel, name. by rewrite <- app_assoc.
Qed.

Lemma NoDup_matching_descendants pat here root :
  unique_names root = true ->
  NoDup (map fst (flat_map (matching_entries pat) (walk_dirs here root))).
Proof.
  revert here. induction root as [c|entries IH] using node_nested_ind;
    intros here Hu; [constructor|].
  apply unique_names_Dir in Hu as [Hd Hall].
  cbn [walk_dirs flat_map]. rewrite map_app, flat_map_flat_map, map_flat_map.
  rewrite Forall_forall in IH. apply NoDup_app_In.
  - by apply NoDup_matching_entries.
  - apply NoDup_flat_map.
    + apply (NoDup_fmap_1 fst). by apply distinct_NoDup.
    + intros e He. apply IH; [by apply list_elem_of_In|by apply Hall].
    + intros [k1 n1] [k2 n2] z H1 H2 Hz1 Hz2. cbn [fst snd] in *.
      apply In_matching_descendants in Hz1 as (rel1 & name1 & ->).
      apply In_matching_descendants in Hz2 as (rel2 & name2 & Heq).
      rewrite <- !app_assoc in Heq. apply app_inv_head in Heq.
      injection Heq as -> _.
      pose proof (entry_In_distinct _ _ _ Hd H1) as E1.
      pose proof (entry_In_distinct _ _ _ Hd H2) as E2. congruence.
  - intros z Hz Hz'. apply in_map_iff in Hz as ([p n] & <- & Hin).
    apply In_matching_entries in Hin as (entries' & name & _ & _ & _ & ->).
    apply in_flat_map in Hz' as ([k m] & _ & Hz'). cbn [fst snd] in Hz'.
    apply In_matching_descendants in Hz' as (rel & name' & Heq).
    rewrite <- !app_assoc in Heq. apply app_inv_head in Heq.
    injection Heq as _ Heq. by destruct rel.
Qed.

Lemma split_star_literal sfx :
  contains "/" sfx = false -> split "/" ("*" ++ sfx) = ["*" ++ sfx].
Proof.
  intros Hsep. apply split_no_separator.
  change ("*" ++ sfx) with (String "*" sfx). simpl. done.
Qed.

Lemma split_globstar_literal sfx :
  contains "/" sfx = false -> split "/" ("**/*" ++ sfx) = ["**"; "*" ++ sfx].
Proof.
  intros Hsep.
  change ("**/*" ++ sfx)
    with (String "*" (String "*" (String "/" (String "*" sfx)))).
  do 3 rewrite split_cons.
  change (String "*" sfx) with ("*" ++ sfx).
  by rewrite (split_star_literal _ Hsep).
Qed.

Lemma NoDup_glob dir sfx recursive fs :
  unique_names fs = true ->
  all_chars no_wildcard sfx = true -> contains "/" sfx = false ->
  NoDup (glob dir ((if recursive : bool then "**/*" else "*") ++ sfx) fs).
Proof.
  intros Hu Hlit Hsep. unfold glob.
  destruct (fs_lookup dir fs) as [root|] eqn:Hroot; [|constructor].
  pose proof (fs_lookup_unique_names _ _ _ Hu Hroot) as Hu'.
  destruct recursive.
  - rewrite (split_globstar_literal _ Hsep), select_globstar. cbn [fst snd].
    assert (Heq : flat_map (select ["*" ++ sfx]) (walk_dirs dir root)
                  = flat_map (matching_entries ("*" ++ sfx))
                      (walk_dirs dir root)).
    { apply flat_map_ext. intros at_. apply select_name.
      by apply star_literal_is_not_globstar. }
    rewrite Heq. by apply NoDup_matching_descendants.
  - rewrite (split_star_literal _ Hsep).
    rewrite select_name by by apply star_literal_is_not_globstar.
    destruct root as [c|entries]; [constructor|].
    apply unique_names_Dir in Hu' as [Hd _].
    by apply NoDup_matching_entries.
Qed.

Lemma length_append (s t : string) :
  String.length (s ++ t) = (String.length s + String.length t)%nat.
Proof.
  induction s as [|c s IH]; [done|]. rewrite append_cons. simpl. by rewrite IH.
Qed.

Lemma append_suffix pre1 pre2 s1 s2 :
  pre1 ++ s1 = pre2 ++ s2 -> (String.length s1 <= String.length s2)%nat ->
  exists t, s2 = t ++ s1.
Proof.
  revert pre2. induction pre1 as [|c pre1 IH]; intros pre2 Heq Hlen.
  - rewrite append_empty_l in Heq. subst s1. destruct pre2 as [|c pre2].
    + by exists "".
    + rewrite length_append in Hlen. simpl in Hlen. lia.
  - destruct pre2 as [|c' pre2].
    + rewrite append_empty_l in Heq. subst s2. by exists (String c pre1).
    + rewrite !append_cons in Heq. injection Heq as _ Heq. by eapply IH.
Qed.

Lemma audio_suffixes_exclusive file_name sfx1 sfx2 :
  In sfx1 audio_suffixes -> In sfx2 audio_suffixes ->
  ends_with file_name sfx1 -> ends_with file_name sfx2 -> sfx1 = sfx2.
Proof.
  assert (H : forall s1 s2, In s1 audio_suffixes -> In s2 audio_suffixes ->
              (String.length s1 <= String.length s2)%nat ->
              (exists t, s2 = t ++ s1) -> s1 = s2).
  { intros s1 s2 H1 H2 Hlen [t Ht].
    assert (Ht' : (String.length t <= 1)%nat).
    { apply (f_equal String.length) in Ht.
      rewrite length_append in Ht.
      repeat (destruct H1 as [<-|H1]; [|]); try destruct H1;
        repeat (destruct H2 as [<-|H2]; [|]); try destruct H2;
        simpl in *; lia. }
    destruct t as [|c [|c' t]]; [by rewrite append_empty_l in Ht| |simpl in Ht'; lia].
    rewrite append_cons, append_empty_l in Ht.
    repeat (destruct H1 as [<-|H1]; [|]); try destruct H1;
      repeat (destruct H2 as [<-|H2]; [|]); try destruct H2;
      try reflexivity; discriminate. }
  intros H1 H2 [pre1 E1] [pre2 E2].
  destruct (Nat.le_ge_cases (String.length sfx1) (String.length sfx2)).
  - apply H; [done..|]. eapply append_suffix; [|done]. by rewrite <- E1, <- E2.
  - symmetry. apply H; [done..|]. eapply append_suffix; [|done].
    by rewrite <- E1, <- E2.
Qed.

Lemma In_glob_ends_with dir sfx recursive fs p :
  all_chars no_wildcard sfx = true -> contains "/" sfx = false ->
  In p (glob dir ((if recursive : bool then "**/*" else "*") ++ sfx) fs) ->
  exists rel name n,
    p = (dir ++ rel ++ [name])%list /\ ends_with name sfx
    /\ exists root, fs_lookup dir fs = Some root
                    /\ reaches root (rel ++ [name])%list n.
Proof.
  intros Hlit Hsep. destruct recursive.
  - rewrite (In_glob_descendants _ _ _ _ Hlit Hsep).
    intros (root & rel & name & n & Hroot & -> & Hr & Hends).
    exists rel, name, n. eauto.
  - rewrite (In_glob_children _ _ _ _ Hlit Hsep).
    intros (root & name & n & Hroot & -> & Hr & Hends).
    exists [], name, n. eauto.
Qed.

(** X21. On a tree in which no directory has two entries of one name, the
    collection holds no path twice, so that no file is processed twice in
    a run, and every path it holds exists. *)
Theorem collect_audio_files_no_duplicates (input_dir : path)
    (recursive : bool) (fs : node) :
  unique_names fs = true ->
  NoDup (collect_audio_files input_dir recursive fs)
  /\ forall p, In p (collect_audio_files input_dir recursive fs) ->
               exists n, fs_lookup p fs = Some n.
Proof.
  intros Hu. split.
  - unfold collect_audio_files.
    assert (Hpiece : forall sfx p,
               In sfx audio_suffixes ->
               In p (glob input_dir
                       ((if recursive then "**/*" else "*") ++ sfx) fs) ->
               exists rel name,
                 p = (input_dir ++ rel ++ [name])%list /\ ends_with name sfx).
    { intros sfx p Hsfx Hp.
      destruct (audio_suffixes_plain _ Hsfx) as [Hlit Hsep].
      apply In_glob_ends_with in Hp as (rel & name & n & -> & Hends & _);
        eauto. }
    assert (Hsame : forall sfx1 sfx2 p,
               In sfx1 audio_suffixes -> In sfx2 audio_suffixes ->
               In p (glob input_dir
                       ((if recursive then "**/*" else "*") ++ sfx1) fs) ->
               In p (glob input_dir
                       ((if recursive then "**/*" else "*") ++ sfx2) fs) ->
               sfx1 = sfx2).
    { intros sfx1 sfx2 p H1 H2 Hp1 Hp2.
      apply Hpiece in Hp1 as (rel1 & name1 & -> & Hends1); [|done].
      apply Hpiece in Hp2 as (rel2 & name2 & Heq & Hends2); [|done].
      apply app_inv_head in Heq. apply app_inj_tail in Heq as [_ ->].
      by eapply audio_suffixes_exclusive. }
    assert (Hlower : forall ext, In ext extensions -> In ext audio_suffixes).
    { intros ext Hext. apply In_audio_suffixes. eauto. }
    assert (Hupper : forall ext, In ext extensions ->
                                 In (upper ext) audio_suffixes).
    { intros ext Hext. apply In_audio_suffixes. eauto. }
    apply NoDup_flat_map.
    + apply distinct_NoDup. reflexivity.
    + intros ext Hext. apply NoDup_app_In.
      * destruct (audio_suffixes_plain _ (Hlower _ Hext)).
        by apply NoDup_glob.
      * destruct (audio_suffixes_plain _ (Hupper _ Hext)).
        by apply NoDup_glob.
      * intros p Hp1 Hp2.
        pose proof (Hsame _ _ _ (Hlower _ Hext) (Hupper _ Hext) Hp1 Hp2) as E.
        revert E. clear -Hext.
        repeat (destruct Hext as [<-|Hext]; [discriminate|]). destruct Hext.
    + intros ext1 ext2 p H1 H2 Hp1 Hp2.
      apply in_app_iff in Hp1, Hp2.
      assert (E : ext1 = ext2 \/ ext1 = upper ext2 \/ upper ext1 = ext2
                  \/ upper ext1 = upper ext2).
      { destruct Hp1 as [Hp1|Hp1], Hp2 as [Hp2|Hp2];
          [left|right; left|right; right; left|right; right; right];
          eapply Hsame; eauto. }
      revert E. clear -H1 H2.
      repeat (destruct H1 as [<-|H1]; [|]); try destruct H1;
        repeat (destruct H2 as [<-|H2]; [|]); try destruct H2;
        try reflexivity; intros [E|[E|[E|E]]]; discriminate.
  - intros p Hp. apply In_collect_audio_files in Hp
      as (root & rel & name & n & sfx & Hroot & -> & Hr & _).
    exists n. rewrite fs_lookup_app, Hroot.
    pose proof (fs_lookup_unique_names _ _ _ Hu Hroot) as Hu'.
    by destruct (reaches_fs_lookup _ _ _ Hu' Hr).
Qed.

Lemma collect_audio_files_no_duplicates_witness :
  NoDup (collect_audio_files ["in"] true sample_tree)
  /\ forall p, In p (collect_audio_files ["in"] true sample_tree) ->
               exists n, fs_lookup p sample_tree = Some n.
Proof.
  apply (collect_audio_files_no_duplicates ["in"] true sample_tree).
  reflexivity.
Defined.
